(** * linkedin-finder: a shallow embedding of [linkedin-finder.py]

    The script reads e-mail addresses, one per line, derives a surname hint
    from each local part, builds a search query and three search-engine
    links, and writes the resulting table as CSV (optionally as XLSX).

    Python's [str] is a sequence of Unicode code points; it is modelled as a
    list of code points, so that [strip] (Unicode white space), the regular
    expression (ASCII classes) and [quote_plus] (UTF-8, then percent
    encoding) all read as they do in the interpreter. *)

From Stdlib Require Import Arith NArith ZArith List Bool String Ascii Lia.
From Stdlib Require Import DecimalString.
Import ListNotations.

Local Open Scope N_scope.

(* ================================================================= *)
(** * Part I: definitions *)
(* ================================================================= *)

(** ** Strings *)

Definition str := list N.

Definition ch (a : ascii) : N := N_of_ascii a.
Arguments ch a%_char.

(** An ASCII literal as a Python string. *)
Definition lit (s : string) : str := map N_of_ascii (list_ascii_of_string s).

Definition dquote : N := 34.
Definition CR : N := 13.
Definition LF : N := 10.

Definition str_eqb (a b : str) : bool :=
  if list_eq_dec N.eq_dec a b then true else false.

(** Truthiness of a string: [if s] / [if not s]. *)
Definition truthy (s : str) : bool :=
  match s with [] => false | _ :: _ => true end.

(** [c in s] for a one-character needle. *)
Definition contains (c : N) (s : str) : bool := existsb (N.eqb c) s.

Definition in_range (lo hi c : N) : bool := (lo <=? c) && (c <=? hi).

(** [str.isspace] on one code point: the code points CPython's
    [_PyUnicode_IsWhitespace] accepts. *)
Definition isspace (c : N) : bool :=
  in_range 0x09 0x0D c || in_range 0x1C 0x20 c || (c =? 0x85) || (c =? 0xA0)
  || (c =? 0x1680) || in_range 0x2000 0x200A c || (c =? 0x2028)
  || (c =? 0x2029) || (c =? 0x202F) || (c =? 0x205F) || (c =? 0x3000).

Fixpoint lstrip (s : str) : str :=
  match s with
  | [] => []
  | c :: r => if isspace c then lstrip r else s
  end.

Definition rstrip (s : str) : str := rev (lstrip (rev s)).

(** [s.strip()] *)
Definition strip (s : str) : str := rstrip (lstrip s).

(** [s.split(sep)] for a one-character separator: one more piece than
    there are occurrences of [sep]. *)
Fixpoint split (sep : N) (s : str) : list str :=
  match s with
  | [] => [[]]
  | c :: r =>
      if c =? sep then [] :: split sep r
      else match split sep r with
           | h :: t => (c :: h) :: t
           | [] => [[c]]
           end
  end.

(** [s.split(sep, 1)]: cut at the first occurrence only. *)
Fixpoint split1 (sep : N) (s : str) : list str :=
  match s with
  | [] => [[]]
  | c :: r =>
      if c =? sep then [[]; r]
      else match split1 sep r with
           | h :: t => (c :: h) :: t
           | [] => [[c]]
           end
  end.

(** [sep.join(parts)] *)
Fixpoint join (sep : str) (parts : list str) : str :=
  match parts with
  | [] => []
  | [p] => p
  | p :: rest => p ++ sep ++ join sep rest
  end.

(** [s.replace(a, b)] for one-character [a] and [b]. *)
Definition replace (a b : N) (s : str) : str :=
  map (fun c => if c =? a then b else c) s.

(** ** [extract_surname_hint] *)

Definition separators : list N := [ch "."; ch "-"; ch "_"].

(** The [for sep in (".", "-", "_")] loop, one iteration per element;
    falling off the end of the loop returns [local] itself. *)
Fixpoint surname_loop (seps : list N) (local : str) : str :=
  match seps with
  | [] => local
  | sep :: rest =>
      if contains sep local then
        let parts := filter truthy (split sep local) in
        if (2 <=? List.length parts)%nat then last parts []
        else surname_loop rest local
      else surname_loop rest local
  end.

Definition extract_surname_hint (local : str) : str :=
  surname_loop separators local.

(** The non-empty fragments of [local] around [sep]. *)
Definition fragments (sep : N) (local : str) : list str :=
  filter truthy (split sep local).

(** The rule in the words of the specification: no [sep in local] test,
    the first separator with two fragments or more decides. *)
Fixpoint surname_rule (seps : list N) (local : str) : str :=
  match seps with
  | [] => local
  | sep :: rest =>
      if (2 <=? List.length (fragments sep local))%nat
      then last (fragments sep local) []
      else surname_rule rest local
  end.

(** ** Regular expressions

    The fragment of [re] that [EMAIL_RE] uses: character classes,
    concatenation, [+] and [{2,}].  Matching is decided with Brzozowski
    derivatives. *)

Inductive regex : Type :=
| Void : regex
| Eps : regex
| Class : (N -> bool) -> regex
| Cat : regex -> regex -> regex
| Alt : regex -> regex -> regex
| Star : regex -> regex.

(** [r+] *)
Definition Plus (r : regex) : regex := Cat r (Star r).

(** [r{2,}] *)
Definition AtLeast2 (r : regex) : regex := Cat r (Cat r (Star r)).

Fixpoint nullable (r : regex) : bool :=
  match r with
  | Void => false
  | Eps => true
  | Class _ => false
  | Cat r1 r2 => nullable r1 && nullable r2
  | Alt r1 r2 => nullable r1 || nullable r2
  | Star _ => true
  end.

Fixpoint deriv (c : N) (r : regex) : regex :=
  match r with
  | Void => Void
  | Eps => Void
  | Class p => if p c then Eps else Void
  | Cat r1 r2 =>
      if nullable r1 then Alt (Cat (deriv c r1) r2) (deriv c r2)
      else Cat (deriv c r1) r2
  | Alt r1 r2 => Alt (deriv c r1) (deriv c r2)
  | Star r1 => Cat (deriv c r1) (Star r1)
  end.

(** The whole of [s] is in the language of [r]. *)
Fixpoint matches (r : regex) (s : str) : bool :=
  match s with
  | [] => nullable r
  | c :: s' => matches (deriv c r) s'
  end.

(** The words of a regular expression. *)
Inductive lang : regex -> str -> Prop :=
| lang_eps : lang Eps []
| lang_class : forall (p : N -> bool) c, p c = true -> lang (Class p) [c]
| lang_cat : forall r1 r2 s1 s2,
    lang r1 s1 -> lang r2 s2 -> lang (Cat r1 r2) (s1 ++ s2)
| lang_alt_l : forall r1 r2 s, lang r1 s -> lang (Alt r1 r2) s
| lang_alt_r : forall r1 r2 s, lang r2 s -> lang (Alt r1 r2) s
| lang_star_nil : forall r, lang (Star r) []
| lang_star_cons : forall r s1 s2,
    lang r s1 -> lang (Star r) s2 -> lang (Star r) (s1 ++ s2).

(** [re.compile("^" r "$").match(s)]: without [re.MULTILINE], [^] is the
    start of the string and [$] is its end or the position just before a
    final newline. *)
Definition re_match_anchored (r : regex) (s : str) : bool :=
  matches r s
  || match rev s with
     | c :: before => (c =? LF) && matches r (rev before)
     | [] => false
     end.

Definition is_upper (c : N) : bool := in_range (ch "A") (ch "Z") c.
Definition is_lower (c : N) : bool := in_range (ch "a") (ch "z") c.
Definition is_letter (c : N) : bool := is_upper c || is_lower c.
Definition is_digit (c : N) : bool := in_range (ch "0") (ch "9") c.

(** [[A-Za-z0-9._+-]] *)
Definition local_char (c : N) : bool :=
  is_letter c || is_digit c
  || (c =? ch ".") || (c =? ch "_") || (c =? ch "+") || (c =? ch "-").

(** [[A-Za-z0-9.-]] *)
Definition domain_char (c : N) : bool :=
  is_letter c || is_digit c || (c =? ch ".") || (c =? ch "-").

(** [^[A-Za-z0-9._+-]+@[A-Za-z0-9.-]+\.[A-Za-z]{2,}$], anchors apart. *)
Definition EMAIL_RE : regex :=
  Cat (Plus (Class local_char))
 (Cat (Class (N.eqb (ch "@")))
 (Cat (Plus (Class domain_char))
 (Cat (Class (N.eqb (ch ".")))
      (AtLeast2 (Class is_letter))))).

(** ** [iter_emails] *)

(** [line in seen] *)
Definition mem (line : str) (seen : list str) : bool :=
  existsb (str_eqb line) seen.

(** The generator, with its local set [seen] passed along; the result is
    the sequence of yielded values. *)
Fixpoint iter_emails_from (seen : list str) (lines : list str) : list str :=
  match lines with
  | [] => []
  | raw :: rest =>
      let line := strip raw in
      if negb (truthy line) || contains (ch " ") line
         || negb (contains (ch "@") line)
      then iter_emails_from seen rest
      else if re_match_anchored EMAIL_RE line && negb (mem line seen)
      then line :: iter_emails_from (line :: seen) rest
      else iter_emails_from seen rest
  end.

Definition iter_emails (lines : list str) : list str :=
  iter_emails_from [] lines.

(** The tests of the loop body that do not depend on [seen]. *)
Definition valid_line (line : str) : bool :=
  truthy line && negb (contains (ch " ") line) && contains (ch "@") line
  && re_match_anchored EMAIL_RE line.

(** The shape that [EMAIL_RE] accepts, spelled out: a non-empty local
    part of ASCII letters, digits and [. _ + -], an [@], a non-empty run
    of ASCII letters, digits, [.] and [-], a dot, and at least two ASCII
    letters up to the end. *)
Definition email_shape (s : str) : Prop :=
  exists loc dom tld,
    s = loc ++ ch "@" :: dom ++ ch "." :: tld
    /\ loc <> [] /\ forallb local_char loc = true
    /\ dom <> [] /\ forallb domain_char dom = true
    /\ (2 <= List.length tld)%nat /\ forallb is_letter tld = true.

(** The e-mail shape as the specification words it, for a reading
    [letter] of the word "letters": a local part of letters, digits and
    [. _ + -], an [@], and a domain that ends in a dot followed by a label
    of at least two letters.  The words say nothing about what stands
    between the [@] and that last dot. *)
Definition worded_shape (letter : N -> bool) (s : str) : Prop :=
  exists loc before label,
    s = loc ++ ch "@" :: before ++ ch "." :: label
    /\ loc <> []
    /\ forallb (fun c => letter c || is_digit c || (c =? ch ".")
                         || (c =? ch "_") || (c =? ch "+") || (c =? ch "-"))
               loc = true
    /\ (2 <= List.length label)%nat /\ forallb letter label = true.

(** A wider reading of "letters": the ASCII letters and the letters of
    Latin-1. *)
Definition is_latin1_letter (c : N) : bool :=
  is_letter c || in_range 0xC0 0xD6 c || in_range 0xD8 0xF6 c
  || in_range 0xF8 0xFF c.

(** First occurrences, in order. *)
Fixpoint first_occurrences (seen : list str) (l : list str) : list str :=
  match l with
  | [] => []
  | x :: r =>
      if mem x seen then first_occurrences seen r
      else x :: first_occurrences (x :: seen) r
  end.

(** ** [build_query] *)

(** [f'"{kw}"' if " " in kw else kw] *)
Definition quote_keyword (kw : str) : str :=
  if contains (ch " ") kw then dquote :: kw ++ [dquote] else kw.

Definition build_query (surname : str) (org_keywords : list str) : str :=
  let org_block := join (lit " OR ") (map quote_keyword org_keywords) in
  lit "site:linkedin.com/in " ++ dquote :: surname ++ dquote
    :: lit " (" ++ org_block ++ lit ")".

(** ** [urllib.parse.quote_plus] *)

(** [c.encode("utf-8", "strict")] for one code point; [None] stands for
    [UnicodeEncodeError] (a surrogate).  Bytes are numbers below 256. *)
Definition utf8_encode_cp (c : N) : option (list N) :=
  if c <? 0x80 then Some [c]
  else if c <? 0x800 then Some [0xC0 + c / 64; 0x80 + c mod 64]
  else if c <? 0x10000 then
    if in_range 0xD800 0xDFFF c then None
    else Some [0xE0 + c / 4096; 0x80 + (c / 64) mod 64; 0x80 + c mod 64]
  else if c <? 0x110000 then
    Some [0xF0 + c / 262144; 0x80 + (c / 4096) mod 64;
          0x80 + (c / 64) mod 64; 0x80 + c mod 64]
  else None.

Fixpoint utf8_encode (s : str) : option (list N) :=
  match s with
  | [] => Some []
  | c :: r =>
      match utf8_encode_cp c, utf8_encode r with
      | Some bs, Some rest => Some (bs ++ rest)
      | _, _ => None
      end
  end.

(** The code points that UTF-8 can encode: everything up to U+10FFFF
    except the surrogates U+D800..U+DFFF. *)
Definition is_scalar (c : N) : bool :=
  (c <? 0x110000) && negb (in_range 0xD800 0xDFFF c).

(** [_ALWAYS_SAFE]: letters, digits and [_.-~]. *)
Definition always_safe (b : N) : bool :=
  is_letter b || is_digit b
  || (b =? ch "_") || (b =? ch ".") || (b =? ch "-") || (b =? ch "~").

Definition hex_digit (d : N) : N := if d <? 10 then 48 + d else 55 + d.

(** The quoter: [chr(b) if b in safe else '%{:02X}'.format(b)]. *)
Definition quote_byte (safe : str) (b : N) : str :=
  if always_safe b || contains b safe then [b]
  else [ch "%"; hex_digit (b / 16); hex_digit (b mod 16)].

(** [quote(string, safe)] on a [str]. *)
Definition quote (s : str) (safe : str) : option str :=
  if negb (truthy s) then Some s
  else match utf8_encode s with
       | Some bs => Some (flat_map (quote_byte safe) bs)
       | None => None
       end.

Definition quote_plus (s : str) : option str :=
  if negb (contains (ch " ") s) then quote s []
  else match quote s [ch " "] with
       | Some q => Some (replace (ch " ") (ch "+") q)
       | None => None
       end.

(** What one byte becomes in the output of [quote_plus]. *)
Definition form_byte (safe : str) (b : N) : str :=
  replace (ch " ") (ch "+") (quote_byte safe b).

(** The UTF-8 bytes of a code point (none when it has no encoding). *)
Definition cp_bytes (c : N) : list N :=
  match utf8_encode_cp c with
  | Some bs => bs
  | None => []
  end.

(** What one code point becomes in the output of [quote_plus]: its UTF-8
    bytes, each of them kept when it is in [_ALWAYS_SAFE], written as "+"
    when it is a space and as [%XX] otherwise. *)
Definition encode_cp (c : N) : str :=
  flat_map (form_byte [ch " "]) (cp_bytes c).

(** A string that UTF-8 can encode. *)
Definition clean (s : str) : Prop := forallb is_scalar s = true.

(** The characters [quote_plus] can produce. *)
Definition url_char (c : N) : bool :=
  always_safe c || (c =? ch "%") || (c =? ch "+").

(** ** Decoding, as a reader of the links does it *)

Definition is_cont (b : N) : bool := in_range 0x80 0xBF b.

(** Strict UTF-8 decoding of a byte sequence. *)
Fixpoint utf8_decode (bs : list N) : option str :=
  match bs with
  | [] => Some []
  | b0 :: r0 =>
      if b0 <? 0x80 then option_map (cons b0) (utf8_decode r0)
      else if in_range 0xC2 0xDF b0 then
        match r0 with
        | b1 :: r1 =>
            if is_cont b1
            then option_map (cons ((b0 - 0xC0) * 64 + (b1 - 0x80)))
                            (utf8_decode r1)
            else None
        | _ => None
        end
      else if in_range 0xE0 0xEF b0 then
        match r0 with
        | b1 :: b2 :: r2 =>
            let c := (b0 - 0xE0) * 4096 + (b1 - 0x80) * 64 + (b2 - 0x80) in
            if is_cont b1 && is_cont b2 && (0x800 <=? c)
               && negb (in_range 0xD800 0xDFFF c)
            then option_map (cons c) (utf8_decode r2)
            else None
        | _ => None
        end
      else if in_range 0xF0 0xF4 b0 then
        match r0 with
        | b1 :: b2 :: b3 :: r3 =>
            let c := (b0 - 0xF0) * 262144 + (b1 - 0x80) * 4096
                     + (b2 - 0x80) * 64 + (b3 - 0x80) in
            if is_cont b1 && is_cont b2 && is_cont b3
               && (0x10000 <=? c) && (c <? 0x110000)
            then option_map (cons c) (utf8_decode r3)
            else None
        | _ => None
        end
      else None
  end.

Definition hex_value (c : N) : option N :=
  if is_digit c then Some (c - 48)
  else if in_range (ch "A") (ch "F") c then Some (c - 55)
  else if in_range (ch "a") (ch "f") c then Some (c - 87)
  else None.

(** Percent-decoding to bytes: [%XX] is one byte, a [%] that is not
    followed by two hexadecimal digits stays as it is. *)
Fixpoint percent_decode (s : str) : list N :=
  match s with
  | [] => []
  | c :: r =>
      if c =? ch "%" then
        match r with
        | h :: l :: r' =>
            match hex_value h, hex_value l with
            | Some a, Some b => (16 * a + b) :: percent_decode r'
            | _, _ => c :: percent_decode r
            end
        | _ => c :: percent_decode r
        end
      else c :: percent_decode r
  end.

(** Decoding of a form-encoded value: [+] is a space, then percent
    escapes, then UTF-8. *)
Definition unquote_plus (s : str) : option str :=
  utf8_decode (percent_decode (replace (ch "+") (ch " ") s)).

(** What follows the prefix [p] in [s], when [s] starts with [p]. *)
Fixpoint strip_prefix (p s : str) : option str :=
  match p, s with
  | [], _ => Some s
  | a :: p', b :: s' => if a =? b then strip_prefix p' s' else None
  | _ :: _, [] => None
  end.

Fixpoint find_param (name : str) (pairs : list str) : option str :=
  match pairs with
  | [] => None
  | kv :: rest =>
      match strip_prefix (name ++ [ch "="]) kv with
      | Some v => Some v
      | None => find_param name rest
      end
  end.

(** The raw value of the query parameter [name] of a URL: the fragment is
    cut off at [#], the query starts after the first [?], and its fields
    are separated by [&]. *)
Definition query_param (name : str) (url : str) : option str :=
  match split1 (ch "#") url with
  | no_fragment :: _ =>
      match split1 (ch "?") no_fragment with
      | [_; query] => find_param name (split (ch "&") query)
      | _ => None
      end
  | [] => None
  end.

(** The decoded value of a query parameter. *)
Definition decoded_param (name : str) (url : str) : option str :=
  match query_param name url with
  | Some v => unquote_plus v
  | None => None
  end.

(** ** Exceptions *)

(** The exceptions of the script itself ([UnicodeEncodeError] from
    [quote_plus], [ValueError] from an unpacking) and those its
    surroundings can raise when a file is opened, a sheet is filled or a
    line is printed. *)
Inductive exn : Type :=
| FileNotFoundError
| PermissionError
| UnicodeEncodeError
| ValueError
| IsADirectoryError
| BrokenPipeError
| IllegalCharacterError
| OSError.

Inductive result (A : Type) : Type :=
| Ok : A -> result A
| Raise : exn -> result A.
Arguments Ok {A} _.
Arguments Raise {A} _.

Definition bind {A B : Type} (m : result A) (k : A -> result B) : result B :=
  match m with
  | Ok a => k a
  | Raise e => Raise e
  end.

Notation "x <- m ;; k" := (bind m (fun x => k))
  (at level 61, m at next level, right associativity).

(** ** Dictionaries with string keys *)

Definition dict := list (string * str).

Fixpoint dict_set (k : string) (v : str) (d : dict) : dict :=
  match d with
  | [] => [(k, v)]
  | (k', v') :: rest =>
      if String.eqb k k' then (k, v) :: rest
      else (k', v') :: dict_set k v rest
  end.

(** [d.get(k, default)] *)
Fixpoint dict_get (k : string) (d : dict) (default : str) : str :=
  match d with
  | [] => default
  | (k', v) :: rest => if String.eqb k k' then v else dict_get k rest default
  end.

(** [{**d, **e}] *)
Definition dict_update (d e : dict) : dict :=
  fold_left (fun acc kv => dict_set (fst kv) (snd kv) acc) e d.

(** ** [build_search_links] *)

Definition build_search_links (query : str) : result dict :=
  match quote_plus query with
  | Some q =>
      Ok (dict_set "Yandex" (lit "https://yandex.com/search/?text=" ++ q)
         (dict_set "Bing" (lit "https://www.bing.com/search?q=" ++ q)
         (dict_set "Google" (lit "https://www.google.com/search?q=" ++ q)
            [])))
  | None => Raise UnicodeEncodeError
  end.

(** ** The table writers *)

Definition fieldnames : list string :=
  ["email"; "surname_hint"; "Google"; "Bing"; "Yandex"]%string.

(** [[r.get(k, "") for k in fieldnames]] *)
Definition row_values (r : dict) : list str :=
  map (fun k => dict_get k r []) fieldnames.

(** The characters that make [csv.writer] quote a field under the default
    dialect ([excel], [QUOTE_MINIMAL]): delimiter, quote character and the
    characters of the line terminator. *)
Definition csv_special (c : N) : bool :=
  (c =? ch ",") || (c =? dquote) || (c =? CR) || (c =? LF).

Definition csv_field (f : str) : str :=
  if existsb csv_special f
  then dquote
         :: flat_map (fun c => if c =? dquote then [dquote; dquote] else [c]) f
         ++ [dquote]
  else f.

(** [writer.writerow(fields)]: a record that would be empty (one empty
    field) is written as a quoted empty field. *)
Definition csv_record (fields : list str) : str :=
  match join [ch ","] (map csv_field fields), fields with
  | [], _ :: _ => [dquote; dquote; CR; LF]
  | line, _ => line ++ [CR; LF]
  end.

Definition placeholder_row : dict :=
  [("email", []); ("surname_hint", []); ("Google", []); ("Bing", []);
   ("Yandex", [])]%string.

(** The text [write_csv] puts into the file. *)
Definition csv_text (rows : list dict) : str :=
  let rows := match rows with [] => [placeholder_row] | _ => rows end in
  csv_record (map lit fieldnames)
    ++ flat_map (fun r => csv_record (row_values r)) rows.

(** The cells [try_write_xlsx] appends to the sheet. *)
Definition xlsx_cells (rows : list dict) : list (list str) :=
  map lit fieldnames :: map row_values rows.

(** The number of records of a CSV text: line ends outside quoted
    fields. *)
Fixpoint csv_count (in_quotes : bool) (s : str) : nat :=
  match s with
  | [] => 0
  | c :: r =>
      if c =? dquote then csv_count (negb in_quotes) r
      else if (c =? LF) && negb in_quotes then S (csv_count in_quotes r)
      else csv_count in_quotes r
  end.

Definition csv_data_rows (content : str) : nat :=
  Nat.pred (csv_count false content).

(** Whether the end of [s] is inside a quoted field. *)
Fixpoint csv_state (in_quotes : bool) (s : str) : bool :=
  match s with
  | [] => in_quotes
  | c :: r => csv_state (if c =? dquote then negb in_quotes else in_quotes) r
  end.

Definition header_line : str := lit "email,surname_hint,Google,Bing,Yandex".

(** ** [main]: keywords and rows *)

(** A UTF-8 literal of the source as a Python string. *)
Definition text (s : string) : str :=
  match utf8_decode (lit s) with
  | Some r => r
  | None => []
  end.

Definition DEFAULT_ORG_KEYWORDS : list str :=
  [lit "sk.kz"; lit "Samruk-Kazyna"; text "Самрук-Казына"].

Record args : Type := {
  input : str;
  output : str;
  xlsx : option str;
  org : option str
}.

(** [a or b] on lists. *)
Definition or_else {A : Type} (a b : list A) : list A :=
  match a with [] => b | _ => a end.

(** Lines 92-95. *)
Definition org_keywords_of (o : option str) : list str :=
  match o with
  | Some s =>
      if truthy s
      then or_else
             (map strip
                (filter (fun kw => truthy (strip kw)) (split (ch ";") s)))
             DEFAULT_ORG_KEYWORDS
      else DEFAULT_ORG_KEYWORDS
  | None => DEFAULT_ORG_KEYWORDS
  end.

(** [local, _domain = e.split("@", 1)] *)
Definition unpack2 (parts : list str) : result (str * str) :=
  match parts with
  | [a; b] => Ok (a, b)
  | _ => Raise ValueError
  end.

(** The body of the [for e in emails] loop. *)
Definition build_row (org_keywords : list str) (e : str) : result dict :=
  p <- unpack2 (split1 (ch "@") e) ;;
  let surname := extract_surname_hint (fst p) in
  let query := build_query surname org_keywords in
  links <- build_search_links query ;;
  Ok (dict_update (dict_set "surname_hint" surname (dict_set "email" e []))
                  links).

Fixpoint build_rows (org_keywords : list str) (emails : list str)
  : result (list dict) :=
  match emails with
  | [] => Ok []
  | e :: rest =>
      row <- build_row org_keywords e ;;
      rows <- build_rows org_keywords rest ;;
      Ok (row :: rows)
  end.

(** ** The world of the script: files, standard output, [openpyxl] *)

(** The four lines [main] can print: the advisory about the missing
    [openpyxl] module (line 115), the workbook path (line 117), the count
    of processed addresses (line 119) and the CSV path (line 120). *)
Inductive message : Type :=
| XlsxUnavailable
| XlsxWritten (path : str)
| Processed (count : nat)
| CsvWritten (path : str).


(** [str(n)] *)
Definition decimal (n : nat) : str :=
  lit (NilZero.string_of_uint (Nat.to_uint n)).

(** The text that [print] hands to the standard output, line end
    included. *)
Definition line (m : message) : str :=
  match m with
  | XlsxUnavailable =>
      text "[!] Не удалось записать XLSX: "
        ++ text "модуль openpyxl не установлен. "
        ++ text "Установите: pip install openpyxl"
  | XlsxWritten path => lit "[+] XLSX: " ++ path
  | Processed count => text "[+] Обработано адресов: " ++ decimal count
  | CsvWritten path => lit "[+] CSV: " ++ path
  end ++ [LF].

(** What the script finds around it.

    - [file_of] tells which file a path names: two spellings of one file
      give the same number;
    - [files] gives the text of each existing file, as a reader in text
      mode with [errors="ignore"] gets it;
    - [read_error] is what [open(path, "r")] raises, if anything;
    - [write_error] is what opening [path] for writing and writing the
      content raises, if anything;
    - [openpyxl] is [None] when the import fails; when the module is
      there it is the function from the cells appended to a sheet to the
      saved workbook, or to the exception of [append] or [save];
    - [stdout_error] is what the standard output raises on a text, if
      anything (a [UnicodeEncodeError] when its encoding lacks a
      character);
    - [stdout] holds what was printed. *)
Record world : Type := {
  file_of : str -> N;
  files : N -> option str;
  read_error : str -> option exn;
  write_error : str -> str -> option exn;
  openpyxl : option (list (list str) -> result str);
  stdout_error : str -> option exn;
  stdout : list message
}.

(** [print(...)] *)
Definition print (m : message) (w : world) : result world :=
  match stdout_error w (line m) with
  | Some e => Raise e
  | None =>
      Ok {| file_of := file_of w; files := files w;
            read_error := read_error w; write_error := write_error w;
            openpyxl := openpyxl w; stdout_error := stdout_error w;
            stdout := stdout w ++ [m] |}
  end.

(** The world after [content] was written to [path]. *)
Definition put_file (path content : str) (w : world) : world :=
  {| file_of := file_of w;
     files := fun f => if f =? file_of w path then Some content
                       else files w f;
     read_error := read_error w; write_error := write_error w;
     openpyxl := openpyxl w; stdout_error := stdout_error w;
     stdout := stdout w |}.

(** [open(path, "w")], write, close. *)
Definition write_file (path content : str) (w : world) : result world :=
  match write_error w path content with
  | Some e => Raise e
  | None => Ok (put_file path content w)
  end.

(** The lines of a text file opened for reading: [\n], [\r\n] and [\r]
    all end a line and are handed over as [\n]. *)
Fixpoint read_lines (cur : str) (s : str) : list str :=
  match s with
  | [] => if truthy cur then [rev cur] else []
  | c :: r =>
      if c =? LF then rev (LF :: cur) :: read_lines [] r
      else if c =? CR then
        match r with
        | c' :: r' =>
            if c' =? LF then rev (LF :: cur) :: read_lines [] r'
            else rev (LF :: cur) :: read_lines [] r
        | [] => rev (LF :: cur) :: read_lines [] r
        end
      else read_lines (c :: cur) r
  end.

(** [open(path, "r")] and the iteration over the file. *)
Definition open_lines (path : str) (w : world) : result (list str) :=
  match read_error w path with
  | Some e => Raise e
  | None =>
      match files w (file_of w path) with
      | Some content => Ok (read_lines [] content)
      | None => Raise FileNotFoundError
      end
  end.

(** Lines 59-68. *)
Definition write_csv (rows : list dict) (path : str) (w : world)
  : result world :=
  write_file path (csv_text rows) w.

(** Lines 70-82: only the import is inside [try]; what [append] or
    [save] raise propagates. *)
Definition try_write_xlsx (rows : list dict) (path : str) (w : world)
  : result (bool * world) :=
  match openpyxl w with
  | None => Ok (false, w)
  | Some workbook =>
      saved <- workbook (xlsx_cells rows) ;;
      w' <- write_file path saved w ;;
      Ok (true, w')
  end.

(** ** [main] *)

(** Lines 110-120: what [main] does once the rows are there. *)
Definition report (a : args) (rows : list dict) (w : world) : result world :=
  w <- write_csv rows (output a) w ;;
  w <- match xlsx a with
       | Some path =>
           if truthy path then
             r <- try_write_xlsx rows path w ;;
             if fst r then print (XlsxWritten path) (snd r)
             else print XlsxUnavailable (snd r)
           else Ok w
       | None => Ok w
       end ;;
  w <- print (Processed (List.length rows)) w ;;
  print (CsvWritten (output a)) w.

Definition main (a : args) (w : world) : result world :=
  let org_keywords := org_keywords_of (org a) in
  lines <- open_lines (input a) w ;;
  let emails := iter_emails lines in
  rows <- build_rows org_keywords emails ;;
  report a rows w.

(** ** The example input of the specification *)

Definition example_lines : list str :=
  [lit "john.doe@corp.com"; lit "john.doe@corp.com"; lit "bad email@x";
   lit "a_b@corp.com"].

(** A world for the examples: the input file is file 1, every other path
    names a file of its own that does not exist yet, nothing fails, the
    standard output takes every text, [openpyxl] is not installed. *)
Definition example_world : world :=
  {| file_of := fun p =>
       if str_eqb p (lit "emails.txt") then 1
       else if str_eqb p (lit "linkedin_searches.csv") then 2
       else 3;
     files := fun f => if f =? 1 then Some (join [LF] example_lines)
                       else None;
     read_error := fun _ => None;
     write_error := fun _ _ => None;
     openpyxl := None;
     stdout_error := fun _ => None;
     stdout := [] |}.

Definition example_args : args :=
  {| input := lit "emails.txt";
     output := lit "linkedin_searches.csv";
     xlsx := Some (lit "out.xlsx");
     org := None |}.

(** An override as [sys.argv] hands it over when the command line holds
    the byte 0x80, which is not UTF-8: the byte arrives as the lone
    surrogate U+DC80. *)
Definition surrogate_args : args :=
  {| input := lit "emails.txt";
     output := lit "linkedin_searches.csv";
     xlsx := None;
     org := Some [0xDC80] |}.

(** ** The shape of the links and of a row *)

(** The dictionary of line 53-57 for an encoded query. *)
Definition links_of (enc : str) : dict :=
  [("Google"%string, lit "https://www.google.com/search?q=" ++ enc);
   ("Bing"%string, lit "https://www.bing.com/search?q=" ++ enc);
   ("Yandex"%string, lit "https://yandex.com/search/?text=" ++ enc)].

(** The dictionary of line 107. *)
Definition row_of (e hint enc : str) : dict :=
  ("email"%string, e) :: ("surname_hint"%string, hint) :: links_of enc.

(** ** Words for the keywords of the specification *)

(** [x] is [s] without the white space at its two ends. *)
Definition trimmed_of (s x : str) : Prop :=
  exists pre post,
    s = pre ++ x ++ post
    /\ forallb isspace pre = true /\ forallb isspace post = true
    /\ (forall c r, x = c :: r -> isspace c = false)
    /\ (forall m z, x = m ++ [z] -> isspace z = false).

(** [pieces] are the parts of [s] between the occurrences of [sep]. *)
Definition pieces_of (sep : N) (s : str) (pieces : list str) : Prop :=
  pieces <> [] /\ join [sep] pieces = s
  /\ Forall (fun p => contains sep p = false) pieces.

(** ** Words for the outcome of a run *)

(** The path of [--xlsx] when [if args.xlsx] holds. *)
Definition xlsx_requested (a : args) : option str :=
  match xlsx a with
  | Some path => if truthy path then Some path else None
  | None => None
  end.

(** The line that lines 112-117 print. *)
Definition xlsx_messages (a : args) (w : world) : list message :=
  match xlsx_requested a, openpyxl w with
  | Some path, Some _ => [XlsxWritten path]
  | Some _, None => [XlsxUnavailable]
  | None, _ => []
  end.

(** The addresses and keywords of a run. *)
Definition run_emails (content : str) : list str :=
  iter_emails (read_lines [] content).

Definition run_keywords (a : args) : list str := org_keywords_of (org a).

(** What lines 112-117 do to the world, when they do not raise: nothing
    without [--xlsx] or without [openpyxl], else the saved workbook is
    written. *)
Definition xlsx_outcome (a : args) (rows : list dict) (w : world)
  : result world :=
  match xlsx_requested a, openpyxl w with
  | Some path, Some workbook =>
      saved <- workbook (xlsx_cells rows) ;;
      write_file path saved w
  | _, _ => Ok w
  end.

(** A standard output whose encoding is ASCII. *)
Definition ascii_stdout (t : str) : option exn :=
  if forallb (fun c => c <? 128) t then None else Some UnicodeEncodeError.

Definition ascii_world : world :=
  {| file_of := file_of example_world; files := files example_world;
     read_error := read_error example_world;
     write_error := write_error example_world;
     openpyxl := openpyxl example_world;
     stdout_error := ascii_stdout; stdout := [] |}.

(** The world after the messages [ms] were printed. *)
Definition printed (ms : list message) (w : world) : world :=
  {| file_of := file_of w; files := files w;
     read_error := read_error w; write_error := write_error w;
     openpyxl := openpyxl w; stdout_error := stdout_error w;
     stdout := stdout w ++ ms |}.

(** Printing one message after the other. *)
Fixpoint print_all (ms : list message) (w : world) : result world :=
  match ms with
  | [] => Ok w
  | m :: rest => w' <- print m w ;; print_all rest w'
  end.

(* ================================================================= *)
(** * Part II: properties *)
(* ================================================================= *)

(** ** Strings *)

Lemma str_eqb_eq (a b : str) : str_eqb a b = true <-> a = b.
Proof.
  unfold str_eqb. destruct (list_eq_dec N.eq_dec a b); split; congruence.
Qed.

Lemma str_eqb_refl (a : str) : str_eqb a a = true.
Proof. now apply str_eqb_eq. Qed.

Lemma truthy_true (s : str) : truthy s = true <-> s <> [].
Proof. destruct s; simpl; split; congruence. Qed.

Lemma contains_In (c : N) (s : str) : contains c s = true <-> In c s.
Proof.
  unfold contains. rewrite existsb_exists. split.
  - intros (x & Hx & E). apply N.eqb_eq in E. now subst.
  - intros H. exists c. split; [assumption | apply N.eqb_refl].
Qed.

Lemma contains_app (c : N) (s t : str) :
  contains c (s ++ t) = contains c s || contains c t.
Proof. unfold contains. apply existsb_app. Qed.

Lemma contains_cons (c a : N) (s : str) :
  contains c (a :: s) = (c =? a) || contains c s.
Proof. reflexivity. Qed.

Lemma mem_In (x : str) (l : list str) : mem x l = true <-> In x l.
Proof.
  unfold mem. rewrite existsb_exists. split.
  - intros (y & Hy & E). apply str_eqb_eq in E. now subst.
  - intros H. exists x. split; [assumption | apply str_eqb_refl].
Qed.

(** Without the separator there is nothing to split. *)
Lemma split_absent (sep : N) (s : str) :
  contains sep s = false -> split sep s = [s].
Proof.
  induction s as [|c r IH]; simpl; intros H; [reflexivity|].
  apply orb_false_iff in H. destruct H as [Hc Hr].
  rewrite N.eqb_sym, Hc, (IH Hr). reflexivity.
Qed.

Lemma fragments_absent (sep : N) (s : str) :
  contains sep s = false -> (List.length (fragments sep s) < 2)%nat.
Proof.
  intros H. unfold fragments. rewrite (split_absent _ _ H). simpl.
  destruct (truthy s); simpl; lia.
Qed.

(** ** The surname hint *)

Section SurnameHint.

Variable local : str.

(** The [sep in local] test of the source changes nothing. *)
Lemma surname_loop_rule (seps : list N) :
  surname_loop seps local = surname_rule seps local.
Proof.
  induction seps as [|sep rest IH]; cbn [surname_loop surname_rule];
    [reflexivity|].
  fold (fragments sep local). rewrite IH.
  destruct (contains sep local) eqn:Hc; [reflexivity|].
  pose proof (fragments_absent _ _ Hc) as Hlt.
  destruct (Nat.leb_spec 2 (List.length (fragments sep local)));
    [lia | reflexivity].
Qed.

(** First success wins; no success gives [local] back. *)
Lemma surname_rule_first (seps : list N) :
  (exists before sep after,
      seps = before ++ sep :: after
      /\ (forall s, In s before ->
                    (List.length (fragments s local) < 2)%nat)
      /\ (2 <= List.length (fragments sep local))%nat
      /\ surname_rule seps local = last (fragments sep local) [])
  \/ ((forall s, In s seps -> (List.length (fragments s local) < 2)%nat)
      /\ surname_rule seps local = local).
Proof.
  induction seps as [|sep rest IH]; cbn [surname_rule].
  - right. split; [intros s [] | reflexivity].
  - destruct (Nat.leb_spec 2 (List.length (fragments sep local))) as [H|H].
    + left. exists [], sep, rest. simpl. repeat split; auto.
      intros s [].
    + destruct IH as [(before & s0 & after & E & Hb & Hs & Hr)|[Hall Hr]].
      * left. exists (sep :: before), s0, after. subst rest. simpl.
        repeat split; auto. intros s [<-|Hin]; auto.
      * right. split; [|assumption]. intros s [<-|Hin]; auto.
Qed.

End SurnameHint.

(** C1. For every local part, [extract_surname_hint] tries the
    separators ".", "-", "_" in that order: the first one whose non-empty
    fragments are at least two decides, and the result is the last of
    these fragments; when no separator gives two fragments the local part
    is returned unchanged.  Hence "j.smith" gives "smith", "a_b_c" gives
    "c", "single" gives "single" and "john.doe-extra" gives
    "doe-extra". *)
Theorem extract_surname_hint_first_separator :
  separators = [ch "."; ch "-"; ch "_"]
  /\ (forall local,
        extract_surname_hint local = surname_rule separators local)
  /\ (forall local,
        (exists before sep after,
            separators = before ++ sep :: after
            /\ (forall s, In s before ->
                          (List.length (fragments s local) < 2)%nat)
            /\ (2 <= List.length (fragments sep local))%nat
            /\ extract_surname_hint local = last (fragments sep local) [])
        \/ ((forall s, In s separators ->
                       (List.length (fragments s local) < 2)%nat)
            /\ extract_surname_hint local = local))
  /\ extract_surname_hint (lit "j.smith") = lit "smith"
  /\ extract_surname_hint (lit "a_b_c") = lit "c"
  /\ extract_surname_hint (lit "single") = lit "single"
  /\ extract_surname_hint (lit "john.doe-extra") = lit "doe-extra".
Proof.
  split; [reflexivity|].
  split; [intros local; apply surname_loop_rule|].
  split; [|repeat split; reflexivity].
  intros local. unfold extract_surname_hint.
  rewrite surname_loop_rule. apply surname_rule_first.
Qed.

(** ** Regular expressions: the matcher decides the language *)

Lemma nullable_lang (r : regex) : nullable r = true <-> lang r [].
Proof.
  split.
  - induction r; simpl; intros H; try discriminate.
    + constructor.
    + apply andb_true_iff in H. destruct H as [H1 H2].
      change (@nil N) with (@nil N ++ @nil N). constructor; auto.
    + apply orb_true_iff in H.
      destruct H; [apply lang_alt_l | apply lang_alt_r]; auto.
    + constructor.
  - intros H. remember (@nil N) as s eqn:E.
    induction H; simpl; try reflexivity; try discriminate.
    + apply app_eq_nil in E. destruct E. rewrite IHlang1, IHlang2; auto.
    + rewrite IHlang; auto.
    + rewrite IHlang; auto using orb_true_r.
Qed.

Lemma lang_deriv_sound (c : N) (r : regex) :
  forall s, lang (deriv c r) s -> lang r (c :: s).
Proof.
  induction r; simpl; intros s H.
  - inversion H.
  - inversion H.
  - destruct (b c) eqn:Hp; inversion H; subst. now constructor.
  - destruct (nullable r1) eqn:Hn.
    + inversion H; subst.
      * match goal with
        | [ H' : lang (Cat _ _) _ |- _ ] => inversion H'; subst
        end.
        change (c :: s1 ++ s2) with ((c :: s1) ++ s2). constructor; auto.
      * change (c :: s) with ([] ++ c :: s). constructor; auto.
        now apply nullable_lang.
    + inversion H; subst.
      change (c :: s1 ++ s2) with ((c :: s1) ++ s2). constructor; auto.
  - inversion H; subst; [apply lang_alt_l | apply lang_alt_r]; auto.
  - inversion H; subst.
    change (c :: s1 ++ s2) with ((c :: s1) ++ s2). constructor; auto.
Qed.

Lemma lang_deriv_complete (c : N) (r : regex) (w : str) :
  lang r w -> forall t, w = c :: t -> lang (deriv c r) t.
Proof.
  induction 1; intros t E; simpl.
  - discriminate.
  - injection E as <- <-. rewrite H. constructor.
  - destruct s1 as [|c1 s1'].
    + simpl in E. subst s2.
      assert (Hn : nullable r1 = true) by now apply nullable_lang.
      rewrite Hn. apply lang_alt_r. now apply IHlang2.
    + simpl in E. injection E as -> <-.
      assert (Hc : lang (Cat (deriv c r1) r2) (s1' ++ s2))
        by (constructor; auto).
      destruct (nullable r1); [now apply lang_alt_l | assumption].
  - apply lang_alt_l. auto.
  - apply lang_alt_r. auto.
  - discriminate.
  - destruct s1 as [|c1 s1'].
    + simpl in E. now apply IHlang2.
    + simpl in E. injection E as -> <-. constructor; auto.
Qed.

Lemma deriv_lang (c : N) (r : regex) (s : str) :
  lang (deriv c r) s <-> lang r (c :: s).
Proof.
  split.
  - apply lang_deriv_sound.
  - intros H. now apply (lang_deriv_complete c r (c :: s)).
Qed.

Theorem matches_lang (s : str) : forall r, matches r s = true <-> lang r s.
Proof.
  induction s as [|c s IH]; intros r; simpl.
  - apply nullable_lang.
  - rewrite IH. apply deriv_lang.
Qed.

Lemma lang_cat_inv (r1 r2 : regex) (s : str) :
  lang (Cat r1 r2) s <->
  exists s1 s2, s = s1 ++ s2 /\ lang r1 s1 /\ lang r2 s2.
Proof.
  split.
  - intros H. inversion H; subst. eauto.
  - intros (s1 & s2 & -> & H1 & H2). now constructor.
Qed.

Lemma lang_class_inv (p : N -> bool) (s : str) :
  lang (Class p) s <-> exists c, s = [c] /\ p c = true.
Proof.
  split.
  - intros H. inversion H; subst. eauto.
  - intros (c & -> & H). now constructor.
Qed.

Lemma lang_star_class (p : N -> bool) (s : str) :
  lang (Star (Class p)) s <-> forallb p s = true.
Proof.
  split.
  - intros H. remember (Star (Class p)) as r eqn:E.
    induction H; try discriminate; [reflexivity|].
    injection E as ->. inversion H; subst. simpl.
    rewrite IHlang2 by reflexivity.
    match goal with [ Hp : p _ = true |- _ ] => now rewrite Hp end.
  - induction s as [|c s IH]; simpl; intros H; [constructor|].
    apply andb_true_iff in H. destruct H as [Hc Hs].
    change (c :: s) with ([c] ++ s). constructor; [now constructor | auto].
Qed.

Lemma lang_plus_class (p : N -> bool) (s : str) :
  lang (Plus (Class p)) s <-> s <> [] /\ forallb p s = true.
Proof.
  unfold Plus. rewrite lang_cat_inv. split.
  - intros (s1 & s2 & -> & H1 & H2).
    apply lang_class_inv in H1. destruct H1 as (c & -> & Hc).
    apply lang_star_class in H2. simpl. rewrite Hc, H2.
    split; [discriminate | reflexivity].
  - intros [Hne H]. destruct s as [|c s]; [congruence|].
    simpl in H. apply andb_true_iff in H. destruct H as [Hc Hs].
    exists [c], s. repeat split.
    + now constructor.
    + now apply lang_star_class.
Qed.

Lemma lang_atleast2_class (p : N -> bool) (s : str) :
  lang (AtLeast2 (Class p)) s <->
  (2 <= List.length s)%nat /\ forallb p s = true.
Proof.
  unfold AtLeast2. rewrite lang_cat_inv. split.
  - intros (s1 & s2 & -> & H1 & H2).
    apply lang_class_inv in H1. destruct H1 as (c & -> & Hc).
    apply lang_cat_inv in H2. destruct H2 as (s3 & s4 & -> & H3 & H4).
    apply lang_class_inv in H3. destruct H3 as (d & -> & Hd).
    apply lang_star_class in H4. simpl. rewrite Hc, Hd, H4.
    split; [lia | reflexivity].
  - intros [Hlen H]. destruct s as [|c [|d s]]; simpl in Hlen; try lia.
    simpl in H. apply andb_true_iff in H. destruct H as [Hc H].
    apply andb_true_iff in H. destruct H as [Hd Hs].
    exists [c], (d :: s). repeat split; [now constructor|].
    apply lang_cat_inv. exists [d], s. repeat split; [now constructor|].
    now apply lang_star_class.
Qed.

(** The regular expression of the source says what the specification
    says in words. *)
Theorem EMAIL_RE_shape (s : str) : lang EMAIL_RE s <-> email_shape s.
Proof.
  unfold EMAIL_RE, email_shape. split.
  - intros H.
    apply lang_cat_inv in H. destruct H as (loc & s1 & -> & Hloc & H).
    apply lang_cat_inv in H. destruct H as (a & s2 & -> & Hat & H).
    apply lang_cat_inv in H. destruct H as (dom & s3 & -> & Hdom & H).
    apply lang_cat_inv in H. destruct H as (d & tld & -> & Hdot & Htld).
    apply lang_plus_class in Hloc. apply lang_plus_class in Hdom.
    apply lang_atleast2_class in Htld.
    apply lang_class_inv in Hat. destruct Hat as (c & -> & Hc).
    apply lang_class_inv in Hdot. destruct Hdot as (c' & -> & Hc').
    apply N.eqb_eq in Hc, Hc'. subst c c'.
    exists loc, dom, tld. simpl. tauto.
  - intros (loc & dom & tld & -> & H1 & H2 & H3 & H4 & H5 & H6).
    apply lang_cat_inv. exists loc, (ch "@" :: dom ++ ch "." :: tld).
    split; [reflexivity|]. split; [now apply lang_plus_class|].
    apply lang_cat_inv. exists [ch "@"], (dom ++ ch "." :: tld).
    split; [reflexivity|].
    split; [apply lang_class_inv; eexists; split;
            [reflexivity | apply N.eqb_refl]|].
    apply lang_cat_inv. exists dom, (ch "." :: tld).
    split; [reflexivity|]. split; [now apply lang_plus_class|].
    apply lang_cat_inv. exists [ch "."], tld.
    split; [reflexivity|].
    split; [apply lang_class_inv; eexists; split;
            [reflexivity | apply N.eqb_refl]|].
    now apply lang_atleast2_class.
Qed.

(** ** White space and [strip] *)

Ltac bool_to_prop :=
  repeat match goal with
         | [ H : _ && _ = true |- _ ] => apply andb_true_iff in H; destruct H
         | [ H : _ || _ = true |- _ ] => apply orb_true_iff in H; destruct H
         | [ H : (_ =? _) = true |- _ ] => apply N.eqb_eq in H
         | [ H : (_ <=? _) = true |- _ ] => apply N.leb_le in H
         | [ H : (_ <? _) = true |- _ ] => apply N.ltb_lt in H
         | [ H : (_ =? _) = false |- _ ] => apply N.eqb_neq in H
         | [ H : (_ <=? _) = false |- _ ] => apply N.leb_gt in H
         | [ H : (_ <? _) = false |- _ ] => apply N.ltb_ge in H
         | [ H : _ && _ = false |- _ ] => apply andb_false_iff in H; destruct H
         | [ H : _ || _ = false |- _ ] => apply orb_false_iff in H; destruct H
         end.

(** Decides a closed fact about character classes by arithmetic. *)
Ltac class_lia :=
  unfold local_char, domain_char, is_letter, is_upper, is_lower, is_digit,
    always_safe, isspace, csv_special, in_range, ch, dquote, CR, LF in *;
  simpl N_of_ascii in *; bool_to_prop; subst; try lia; try discriminate.

Lemma local_char_not_space (c : N) : local_char c = true -> isspace c = false.
Proof. intros H. destruct (isspace c) eqn:E; [class_lia | reflexivity]. Qed.

Lemma domain_char_not_space (c : N) :
  domain_char c = true -> isspace c = false.
Proof. intros H. destruct (isspace c) eqn:E; [class_lia | reflexivity]. Qed.

Lemma letter_not_space (c : N) : is_letter c = true -> isspace c = false.
Proof. intros H. destruct (isspace c) eqn:E; [class_lia | reflexivity]. Qed.

Lemma lstrip_head (s : str) (c : N) (r : str) :
  lstrip s = c :: r -> isspace c = false.
Proof.
  induction s as [|a s IH]; simpl; [discriminate|].
  destruct (isspace a) eqn:E; [assumption|].
  intros H. injection H as <- _. assumption.
Qed.

Lemma lstrip_fixed (c : N) (r : str) :
  isspace c = false -> lstrip (c :: r) = c :: r.
Proof. intros H. simpl. now rewrite H. Qed.

(** A stripped line does not end in white space. *)
Lemma strip_last (s x : str) (c : N) :
  strip s = x ++ [c] -> isspace c = false.
Proof.
  unfold strip, rstrip. intros H.
  apply (f_equal (@rev N)) in H. rewrite rev_involutive, rev_app_distr in H.
  simpl in H. eapply lstrip_head. eassumption.
Qed.

Lemma strip_fixed (a z : N) (m : str) :
  isspace a = false -> isspace z = false ->
  strip (a :: m ++ [z]) = a :: m ++ [z].
Proof.
  intros Ha Hz. unfold strip, rstrip. rewrite (lstrip_fixed _ _ Ha).
  change (a :: m ++ [z]) with ((a :: m) ++ [z]).
  rewrite rev_app_distr.
  change (rev [z] ++ rev (a :: m)) with (z :: rev (a :: m)).
  rewrite (lstrip_fixed _ _ Hz).
  change (z :: rev (a :: m)) with ([z] ++ rev (a :: m)).
  rewrite rev_app_distr, rev_involutive. reflexivity.
Qed.

(** ** The shape of an accepted line *)

Lemma forallb_excludes (p : N -> bool) (c : N) (s : str) :
  forallb p s = true -> p c = false -> contains c s = false.
Proof.
  intros Hall Hc. destruct (contains c s) eqn:E; [|reflexivity].
  apply contains_In in E. rewrite forallb_forall in Hall.
  rewrite (Hall _ E) in Hc. discriminate.
Qed.

Lemma letter_is_domain_char (c : N) :
  is_letter c = true -> domain_char c = true.
Proof. intros H. unfold domain_char. now rewrite H. Qed.

Section Shape.

Variable s : str.
Hypothesis Hshape : email_shape s.

Lemma shape_nonempty : s <> [].
Proof.
  destruct Hshape as (loc & dom & tld & -> & _).
  destruct loc; discriminate.
Qed.

Lemma shape_has_at : contains (ch "@") s = true.
Proof.
  destruct Hshape as (loc & dom & tld & -> & _).
  rewrite contains_app, contains_cons, N.eqb_refl. apply orb_true_r.
Qed.

(** No character of an address is outside [local_char] and "@". *)
Lemma shape_chars (c : N) :
  local_char c = false -> c <> ch "@" -> contains c s = false.
Proof.
  intros Hc Hat.
  destruct Hshape as (loc & dom & tld & -> & _ & Hl & _ & Hd & _ & Ht).
  assert (Hdc : domain_char c = false).
  { destruct (domain_char c) eqn:E; [|reflexivity].
    clear - Hc E. class_lia. }
  assert (Hlc : is_letter c = false).
  { destruct (is_letter c) eqn:E; [|reflexivity].
    apply letter_is_domain_char in E. congruence. }
  assert (Hdot : c <> ch ".").
  { intros ->. discriminate. }
  apply N.eqb_neq in Hat, Hdot.
  rewrite contains_app, (forallb_excludes _ _ _ Hl Hc), contains_cons, Hat.
  rewrite contains_app, (forallb_excludes _ _ _ Hd Hdc), contains_cons, Hdot.
  rewrite (forallb_excludes _ _ _ Ht Hlc). reflexivity.
Qed.

Lemma shape_no_space : contains (ch " ") s = false.
Proof. apply shape_chars; [reflexivity | discriminate]. Qed.

Lemma shape_strip : strip s = s.
Proof.
  destruct Hshape as (loc & dom & tld & -> & Hne & Hl & _ & _ & Hlen & Ht).
  destruct loc as [|a loc]; [congruence|].
  destruct (exists_last (l := tld)) as (tld' & z & ->).
  { intros ->. simpl in Hlen. lia. }
  simpl in Hl. apply andb_true_iff in Hl. destruct Hl as [Ha _].
  rewrite forallb_app in Ht. apply andb_true_iff in Ht.
  destruct Ht as [_ Hz]. simpl in Hz. rewrite andb_true_r in Hz.
  replace ((a :: loc) ++ ch "@" :: dom ++ ch "." :: tld' ++ [z])
    with (a :: (loc ++ ch "@" :: dom ++ ch "." :: tld') ++ [z]).
  - apply strip_fixed; [now apply local_char_not_space
                       | now apply letter_not_space].
  - simpl. rewrite <- !app_assoc. simpl. rewrite <- !app_assoc. reflexivity.
Qed.

End Shape.

(** On a stripped line the anchored match is exactly the shape. *)
Lemma re_match_stripped (raw : str) :
  re_match_anchored EMAIL_RE (strip raw) = true <-> email_shape (strip raw).
Proof.
  unfold re_match_anchored. rewrite orb_true_iff, matches_lang, EMAIL_RE_shape.
  split; [|tauto]. intros [H|H]; [assumption|].
  destruct (rev (strip raw)) as [|c before] eqn:E; [discriminate|].
  apply andb_true_iff in H. destruct H as [Hc _]. apply N.eqb_eq in Hc.
  apply (f_equal (@rev N)) in E. rewrite rev_involutive in E. simpl in E.
  apply strip_last in E. subst c. discriminate.
Qed.

Lemma valid_line_shape (raw : str) :
  valid_line (strip raw) = true <-> email_shape (strip raw).
Proof.
  unfold valid_line. split.
  - intros H. apply andb_true_iff in H. destruct H as [_ H].
    now apply re_match_stripped.
  - intros H. rewrite (proj2 (re_match_stripped raw) H).
    rewrite (shape_has_at _ H), (shape_no_space _ H).
    rewrite (proj2 (truthy_true _) (shape_nonempty _ H)). reflexivity.
Qed.

(** ** The filter *)

(** One turn of the loop. *)
Lemma iter_emails_from_cons (seen : list str) (raw : str) (rest : list str) :
  iter_emails_from seen (raw :: rest) =
  if valid_line (strip raw) && negb (mem (strip raw) seen)
  then strip raw :: iter_emails_from (strip raw :: seen) rest
  else iter_emails_from seen rest.
Proof.
  cbn [iter_emails_from]. unfold valid_line.
  destruct (truthy (strip raw)); cbn [negb orb andb]; [|reflexivity].
  destruct (contains (ch " ") (strip raw)); cbn [negb orb andb];
    [reflexivity|].
  destruct (contains (ch "@") (strip raw)); cbn [negb orb andb]; reflexivity.
Qed.

Lemma iter_emails_first_occurrences (lines : list str) :
  forall seen,
    iter_emails_from seen lines =
    first_occurrences seen (filter valid_line (map strip lines)).
Proof.
  induction lines as [|raw rest IH]; intros seen; [reflexivity|].
  rewrite iter_emails_from_cons. cbn [map filter].
  destruct (valid_line (strip raw)); cbn [andb first_occurrences].
  - destruct (mem (strip raw) seen); cbn [negb]; now rewrite IH.
  - apply IH.
Qed.

Lemma first_occurrences_app (l1 l2 : list str) :
  forall seen,
    first_occurrences seen (l1 ++ l2) =
    first_occurrences seen l1
      ++ first_occurrences (rev (first_occurrences seen l1) ++ seen) l2.
Proof.
  induction l1 as [|x l1 IH]; intros seen; [reflexivity|].
  cbn [app first_occurrences]. destruct (mem x seen).
  - apply IH.
  - rewrite IH. cbn [app rev]. now rewrite <- app_assoc.
Qed.

Lemma first_occurrences_In (l : list str) :
  forall seen x,
    In x (first_occurrences seen l) <-> In x l /\ ~ In x seen.
Proof.
  induction l as [|y l IH]; intros seen x; cbn [first_occurrences].
  - simpl. tauto.
  - destruct (mem y seen) eqn:Hm.
    + apply mem_In in Hm. rewrite IH. simpl. split.
      * tauto.
      * intros [[<-|H] Hn]; [contradiction | tauto].
    + assert (Hn : ~ In y seen).
      { intros H. apply mem_In in H. congruence. }
      simpl. rewrite IH. simpl. split.
      * intros [<-|[H1 H2]]; [tauto|]. split; [tauto|]. tauto.
      * intros [[<-|H] Hx]; [tauto|].
        destruct (list_eq_dec N.eq_dec y x) as [<-|Hne]; [tauto|].
        right. tauto.
Qed.

Lemma first_occurrences_NoDup (l : list str) :
  forall seen, NoDup (first_occurrences seen l).
Proof.
  induction l as [|y l IH]; intros seen; cbn [first_occurrences].
  - constructor.
  - destruct (mem y seen); [apply IH|].
    constructor; [|apply IH].
    rewrite first_occurrences_In. simpl. tauto.
Qed.

(** The generator is on line: the lines to come do not change what was
    yielded, and [seen] holds what was yielded. *)
Lemma iter_emails_from_app (l1 l2 seen : list str) :
  iter_emails_from seen (l1 ++ l2) =
  iter_emails_from seen l1
    ++ iter_emails_from (rev (iter_emails_from seen l1) ++ seen) l2.
Proof.
  rewrite !iter_emails_first_occurrences.
  now rewrite map_app, filter_app, first_occurrences_app.
Qed.

Lemma iter_emails_In (lines : list str) (e : str) :
  In e (iter_emails lines) <->
  exists raw, In raw lines /\ strip raw = e /\ email_shape e.
Proof.
  unfold iter_emails. rewrite iter_emails_first_occurrences.
  rewrite first_occurrences_In, filter_In, in_map_iff. split.
  - intros [[(raw & <- & Hin) Hv] _]. exists raw.
    repeat split; auto. now apply valid_line_shape.
  - intros (raw & Hin & <- & Hs).
    split; [split|]; [eauto | now apply valid_line_shape | intros []].
Qed.

(** The shape of the regular expression is one of the shapes that the
    words of the specification allow. *)
Lemma email_shape_worded (s : str) :
  email_shape s -> worded_shape is_letter s.
Proof.
  intros (loc & dom & tld & E & Hne & Hl & _ & _ & Hlen & Ht).
  exists loc, dom, tld. repeat split; assumption.
Qed.

(** C4, as the code has it.  A line is yielded, in its trimmed form,
    exactly when the trimmed line is not empty, has no space, has an "@",
    has the shape of the regular expression (a non-empty local part of
    ASCII letters, digits and [._+-], an "@", a non-empty run of ASCII
    letters, digits, "." and "-", a dot, and at least two ASCII letters)
    and was not yielded before; any other line yields nothing.  What a
    line yields does not depend on the lines after it.  Every yielded
    line has the shape that the specification words. *)
Theorem iter_emails_yields_iff (earlier : list str) (raw : str) :
  let line := strip raw in
  let accepted :=
    line <> [] /\ contains (ch " ") line = false
    /\ contains (ch "@") line = true /\ email_shape line
    /\ ~ In line (iter_emails earlier) in
  ((accepted
    /\ iter_emails (earlier ++ [raw]) = iter_emails earlier ++ [line])
   \/ (~ accepted
       /\ iter_emails (earlier ++ [raw]) = iter_emails earlier))
  /\ (forall later,
         exists tail,
           iter_emails (earlier ++ raw :: later) =
           iter_emails (earlier ++ [raw]) ++ tail)
  /\ (email_shape line -> worded_shape is_letter line).
Proof.
  intros line accepted. split; [|split].
  - unfold iter_emails. rewrite iter_emails_from_app, app_nil_r.
    fold (iter_emails earlier). rewrite iter_emails_from_cons. fold line.
    cbn [iter_emails_from].
    destruct (valid_line line) eqn:Hv; cbn [andb].
    + apply valid_line_shape in Hv.
      destruct (mem line (rev (iter_emails earlier))) eqn:Hm; cbn [negb].
      * right. rewrite app_nil_r. split; [|reflexivity].
        apply mem_In in Hm. rewrite <- in_rev in Hm.
        unfold accepted. tauto.
      * left. split; [|reflexivity]. unfold accepted.
        repeat split.
        -- now apply shape_nonempty.
        -- now apply shape_no_space.
        -- now apply shape_has_at.
        -- assumption.
        -- intros Hin. rewrite in_rev in Hin. apply mem_In in Hin.
           congruence.
    + right. rewrite app_nil_r. split; [|reflexivity].
      intros (_ & _ & _ & Hs & _). apply valid_line_shape in Hs.
      unfold line in Hv. congruence.
  - intros later. unfold iter_emails.
    change (raw :: later) with ([raw] ++ later).
    rewrite app_assoc, (iter_emails_from_app (earlier ++ [raw])).
    eexists. reflexivity.
  - apply email_shape_worded.
Qed.

Lemma iter_emails_yields_iff_witness :
  worded_shape is_letter (strip (lit " a@b.co ")).
Proof.
  apply (proj2 (proj2 (iter_emails_yields_iff [] (lit " a@b.co ")))).
  exists (lit "a"), (lit "b"), (lit "co").
  repeat split; try reflexivity; try discriminate; simpl; lia.
Defined.

(** C4, as the specification words it, fails.  The lines "a@b_c.de" and
    "a@.co" are trimmed, not empty, without space, with an "@", of the
    worded shape (a local part, an "@", a domain that ends in a dot and
    at least two letters) and were not yielded before, yet the filter
    skips them: the regular expression wants one or more letters,
    digits, "." or "-" before the last dot.  When "letters" is read
    beyond ASCII the same holds of a line that starts with U+00E9. *)
Lemma iter_emails_worded_shape_fails :
  (strip (lit "a@b_c.de") = lit "a@b_c.de"
   /\ lit "a@b_c.de" <> []
   /\ contains (ch " ") (lit "a@b_c.de") = false
   /\ contains (ch "@") (lit "a@b_c.de") = true
   /\ worded_shape is_letter (lit "a@b_c.de")
   /\ ~ In (lit "a@b_c.de") (iter_emails [])
   /\ iter_emails ([] ++ [lit "a@b_c.de"]) = [])
  /\ (strip (lit "a@.co") = lit "a@.co"
      /\ lit "a@.co" <> []
      /\ contains (ch " ") (lit "a@.co") = false
      /\ contains (ch "@") (lit "a@.co") = true
      /\ worded_shape is_letter (lit "a@.co")
      /\ ~ In (lit "a@.co") (iter_emails [])
      /\ iter_emails ([] ++ [lit "a@.co"]) = [])
  /\ (strip (0xE9 :: lit "@b.co") = 0xE9 :: lit "@b.co"
      /\ contains (ch " ") (0xE9 :: lit "@b.co") = false
      /\ contains (ch "@") (0xE9 :: lit "@b.co") = true
      /\ worded_shape is_latin1_letter (0xE9 :: lit "@b.co")
      /\ ~ In (0xE9 :: lit "@b.co") (iter_emails [])
      /\ iter_emails ([] ++ [0xE9 :: lit "@b.co"]) = []).
Proof.
  split; [|split].
  - split; [reflexivity|]. split; [discriminate|].
    split; [reflexivity|]. split; [reflexivity|]. split.
    + exists (lit "a"), (lit "b_c"), (lit "de").
      repeat split; try reflexivity; try discriminate; simpl; lia.
    + split; [intros [] | reflexivity].
  - split; [reflexivity|]. split; [discriminate|].
    split; [reflexivity|]. split; [reflexivity|]. split.
    + exists (lit "a"), [], (lit "co").
      repeat split; try reflexivity; try discriminate; simpl; lia.
    + split; [intros [] | reflexivity].
  - split; [reflexivity|]. split; [reflexivity|]. split; [reflexivity|].
    split.
    + exists [0xE9], (lit "b"), (lit "co").
      repeat split; try reflexivity; try discriminate; simpl; lia.
    + split; [intros [] | reflexivity].
Qed.

Lemma mem_rev (x : str) (l : list str) : mem x (rev l) = mem x l.
Proof.
  destruct (mem x l) eqn:E.
  - apply mem_In. apply mem_In in E. now apply in_rev in E.
  - destruct (mem x (rev l)) eqn:E'; [|reflexivity].
    apply mem_In in E'. apply in_rev in E'. apply mem_In in E'. congruence.
Qed.

(** What one more line adds to the output. *)
Lemma iter_emails_snoc (lines : list str) (raw : str) :
  iter_emails (lines ++ [raw]) =
  iter_emails lines
    ++ (if valid_line (strip raw) && negb (mem (strip raw) (iter_emails lines))
        then [strip raw] else []).
Proof.
  unfold iter_emails. rewrite iter_emails_from_app, app_nil_r.
  rewrite iter_emails_from_cons, mem_rev. cbn [iter_emails_from].
  reflexivity.
Qed.

(** The place of a yielded address: it stands for its first occurrence,
    and what is yielded before it is what the earlier lines yield. *)
Lemma iter_emails_position (lines : list str) :
  forall before e after,
    iter_emails lines = before ++ e :: after ->
    exists l1 raw l2,
      lines = l1 ++ raw :: l2 /\ strip raw = e
      /\ ~ In e (map strip l1) /\ iter_emails l1 = before.
Proof.
  induction lines as [|raw lines IH] using rev_ind; intros before e after H.
  - destruct before; discriminate.
  - rewrite iter_emails_snoc in H.
    destruct (valid_line (strip raw)) eqn:Hv; cbn [andb] in H.
    + destruct (mem (strip raw) (iter_emails lines)) eqn:Hm; cbn [negb] in H.
      * rewrite app_nil_r in H.
        destruct (IH _ _ _ H) as (l1 & r & l2 & -> & Hr & Hn & Hb).
        exists l1, r, (l2 ++ [raw]). rewrite <- app_assoc. auto.
      * destruct after as [|a0 after0];
          [|destruct (exists_last (l := a0 :: after0))
              as (after' & z & E); [discriminate | rewrite E in H]].
        -- apply app_inj_tail in H. destruct H as [Hb He].
           exists lines, raw, []. repeat split; auto.
           intros Hin. apply in_map_iff in Hin.
           destruct Hin as (r & Hr & Hin).
           assert (Hy : In (strip raw) (iter_emails lines)).
           { apply iter_emails_In. exists r. subst e.
             repeat split; auto. now apply valid_line_shape. }
           apply mem_In in Hy. congruence.
        -- change (before ++ e :: after' ++ [z])
             with (before ++ (e :: after') ++ [z]) in H.
           rewrite app_assoc in H. apply app_inj_tail in H.
           destruct H as [H _].
           destruct (IH _ _ _ H) as (l1 & r & l2 & -> & Hr & Hn & Hb).
           exists l1, r, (l2 ++ [raw]). rewrite <- app_assoc. auto.
    + rewrite app_nil_r in H.
      destruct (IH _ _ _ H) as (l1 & r & l2 & -> & Hr & Hn & Hb).
      exists l1, r, (l2 ++ [raw]). rewrite <- app_assoc. auto.
Qed.

(** C5. The yielded sequence is the sequence of first occurrences of the
    valid trimmed lines, without duplicates: each yielded address stands
    at its first occurrence in the input, after exactly what the earlier
    lines yield.  An address of valid shape that occurs among the lines,
    however often, is yielded exactly once.  Equality of addresses is
    equality of strings, so letter case matters. *)
Theorem iter_emails_dedup :
  (forall lines,
      iter_emails lines =
      first_occurrences [] (filter valid_line (map strip lines))
      /\ NoDup (iter_emails lines))
  /\ (forall lines before e after,
         iter_emails lines = before ++ e :: after ->
         exists l1 raw l2,
           lines = l1 ++ raw :: l2 /\ strip raw = e
           /\ ~ In e (map strip l1) /\ iter_emails l1 = before)
  /\ (forall lines e,
         email_shape e -> In e lines \/ In e (map strip lines) ->
         count_occ (list_eq_dec N.eq_dec) (iter_emails lines) e = 1%nat)
  /\ iter_emails [lit "A@b.co"; lit "a@b.co"; lit "A@b.co"]
     = [lit "A@b.co"; lit "a@b.co"].
Proof.
  split; [|split; [|split]].
  - intros lines. unfold iter_emails.
    rewrite iter_emails_first_occurrences.
    split; [reflexivity | apply first_occurrences_NoDup].
  - apply iter_emails_position.
  - intros lines e Hs Hin.
    apply NoDup_count_occ'.
    + unfold iter_emails. rewrite iter_emails_first_occurrences.
      apply first_occurrences_NoDup.
    + apply iter_emails_In. destruct Hin as [Hin|Hin].
      * exists e. repeat split; auto. now apply shape_strip.
      * apply in_map_iff in Hin. destruct Hin as (raw & <- & Hin).
        exists raw. auto.
  - reflexivity.
Qed.

Lemma iter_emails_dedup_witness :
  count_occ (list_eq_dec N.eq_dec) (iter_emails example_lines)
    (lit "john.doe@corp.com") = 1%nat.
Proof.
  apply (proj1 (proj2 (proj2 iter_emails_dedup))).
  - exists (lit "john.doe"), (lit "corp"), (lit "com").
    repeat split; try reflexivity; try discriminate. simpl. lia.
  - left. simpl. auto.
Defined.

(** ** Splitting an address at its first "@" *)

Lemma split1_first (sep : N) (a b : str) :
  contains sep a = false -> split1 sep (a ++ sep :: b) = [a; b].
Proof.
  induction a as [|c a IH]; intros H.
  - cbn [app split1]. now rewrite N.eqb_refl.
  - rewrite contains_cons in H. apply orb_false_iff in H.
    destruct H as [Hc Ha]. cbn [app split1].
    rewrite N.eqb_sym, Hc, (IH Ha). reflexivity.
Qed.

Lemma last_In (A : Type) (l : list A) (d : A) : l <> [] -> In (last l d) l.
Proof.
  induction l as [|x l IH]; [congruence|]. intros _.
  destruct l as [|y l]; [now left|].
  right. apply IH. discriminate.
Qed.

Lemma fragments_nonempty (sep : N) (local p : str) :
  In p (fragments sep local) -> p <> [].
Proof.
  unfold fragments. rewrite filter_In. intros [_ H].
  now apply truthy_true.
Qed.

Lemma extract_surname_hint_nonempty (local : str) :
  local <> [] -> extract_surname_hint local <> [].
Proof.
  intros Hne. unfold extract_surname_hint. rewrite surname_loop_rule.
  destruct (surname_rule_first local separators)
    as [(before & sep & after & _ & _ & Hlen & ->)|[_ ->]]; [|assumption].
  apply (fragments_nonempty sep local). apply last_In.
  intros E. rewrite E in Hlen. simpl in Hlen. lia.
Qed.

(** An address of the right shape is cut at its only "@". *)
Lemma shape_split (e : str) :
  email_shape e ->
  exists local domain,
    split1 (ch "@") e = [local; domain]
    /\ e = local ++ ch "@" :: domain
    /\ local <> [] /\ forallb local_char local = true.
Proof.
  intros (loc & dom & tld & -> & Hne & Hl & _).
  exists loc, (dom ++ ch "." :: tld). repeat split; auto.
  apply split1_first. now apply (forallb_excludes local_char).
Qed.

(** C10. Every yielded string has an "@"; cutting it at the first "@"
    gives exactly two parts, so the unpacking in [main] does not raise,
    and the surname hint of the first part is not the empty string. *)
Theorem yielded_email_has_surname (lines : list str) (e : str) :
  In e (iter_emails lines) ->
  contains (ch "@") e = true
  /\ exists local domain,
      split1 (ch "@") e = [local; domain]
      /\ unpack2 (split1 (ch "@") e) = Ok (local, domain)
      /\ e = local ++ ch "@" :: domain
      /\ extract_surname_hint local <> [].
Proof.
  intros Hin. apply iter_emails_In in Hin.
  destruct Hin as (raw & _ & _ & Hs).
  split; [now apply shape_has_at|].
  destruct (shape_split e Hs) as (local & domain & Hsplit & He & Hne & _).
  exists local, domain. rewrite Hsplit. repeat split; auto.
  now apply extract_surname_hint_nonempty.
Qed.

Lemma yielded_email_has_surname_witness :
  In (lit "a_b@corp.com")
     (iter_emails [lit "bad email@x"; lit "a_b@corp.com"])
  /\ contains (ch "@") (lit "a_b@corp.com") = true.
Proof.
  assert (H : In (lit "a_b@corp.com")
                 (iter_emails [lit "bad email@x"; lit "a_b@corp.com"]))
    by (vm_compute; auto).
  split; [exact H|].
  exact (proj1 (yielded_email_has_surname _ _ H)).
Defined.

(** ** The example of the specification, end to end *)

(** C2. The four example lines give exactly two rows, for
    "john.doe@corp.com" and then "a_b@corp.com", with the surname hints
    "doe" and "b"; this holds for the default keywords, and for any other
    keyword list the rows, when they can be built, have these fields. *)
Theorem pipeline_example :
  iter_emails example_lines = [lit "john.doe@corp.com"; lit "a_b@corp.com"]
  /\ (exists r1 r2,
         build_rows DEFAULT_ORG_KEYWORDS (iter_emails example_lines)
         = Ok [r1; r2]
         /\ dict_get "email" r1 [] = lit "john.doe@corp.com"
         /\ dict_get "surname_hint" r1 [] = lit "doe"
         /\ dict_get "email" r2 [] = lit "a_b@corp.com"
         /\ dict_get "surname_hint" r2 [] = lit "b")
  /\ (forall org_keywords,
         match build_rows org_keywords (iter_emails example_lines) with
         | Ok rows =>
             map (fun r => (dict_get "email" r [],
                            dict_get "surname_hint" r [])) rows
             = [(lit "john.doe@corp.com", lit "doe");
                (lit "a_b@corp.com", lit "b")]
         | Raise e => e = UnicodeEncodeError
         end).
Proof.
  split; [reflexivity|]. split.
  - eexists. eexists. split; [vm_compute; reflexivity|].
    repeat split; reflexivity.
  - intros org_keywords.
    change (iter_emails example_lines)
      with [lit "john.doe@corp.com"; lit "a_b@corp.com"].
    cbn [build_rows]. unfold build_row.
    change (split1 (ch "@") (lit "john.doe@corp.com"))
      with [lit "john.doe"; lit "corp.com"].
    change (split1 (ch "@") (lit "a_b@corp.com"))
      with [lit "a_b"; lit "corp.com"].
    cbn [unpack2 bind fst].
    change (extract_surname_hint (lit "john.doe")) with (lit "doe").
    change (extract_surname_hint (lit "a_b")) with (lit "b").
    unfold build_search_links.
    destruct (quote_plus (build_query (lit "doe") org_keywords));
      cbn [bind]; [|reflexivity].
    destruct (quote_plus (build_query (lit "b") org_keywords));
      cbn [bind]; [|reflexivity].
    reflexivity.
Qed.

(** ** The query *)

Lemma join_cons (sep p : str) (rest : list str) :
  join sep (p :: rest) = p ++ flat_map (fun q => sep ++ q) rest.
Proof.
  revert p. induction rest as [|q rest IH]; intros p.
  - simpl. now rewrite app_nil_r.
  - change (join sep (p :: q :: rest)) with (p ++ sep ++ join sep (q :: rest)).
    rewrite IH. cbn [flat_map]. now rewrite <- app_assoc.
Qed.

(** C6. For a surname and a keyword list [kw :: rest], the query is
    [site:linkedin.com/in "<surname>" (<kw> OR ... )]: the surname is
    between double quotes, the keywords are separated by " OR ", and a
    keyword is between double quotes exactly when it has a space. *)
Theorem build_query_format (surname kw : str) (rest : list str) :
  build_query surname (kw :: rest)
  = lit "site:linkedin.com/in " ++ [dquote] ++ surname ++ [dquote]
      ++ lit " (" ++ quote_keyword kw
      ++ flat_map (fun k => lit " OR " ++ quote_keyword k) rest
      ++ lit ")"
  /\ (forall k, quote_keyword k = [dquote] ++ k ++ [dquote]
                <-> contains (ch " ") k = true)
  /\ (forall k, quote_keyword k = k <-> contains (ch " ") k = false)
  /\ build_query (lit "doe") DEFAULT_ORG_KEYWORDS
     = lit "site:linkedin.com/in " ++ [dquote] ++ lit "doe" ++ [dquote]
         ++ lit " (sk.kz OR Samruk-Kazyna OR "
         ++ [0x421; 0x430; 0x43C; 0x440; 0x443; 0x43A; ch "-";
             0x41A; 0x430; 0x437; 0x44B; 0x43D; 0x430]
         ++ lit ")".
Proof.
  split; [|split; [|split]].
  - unfold build_query. cbn [map]. rewrite join_cons, flat_map_concat_map.
    rewrite map_map, <- flat_map_concat_map.
    cbn [app]. rewrite <- !app_assoc. reflexivity.
  - intros k. unfold quote_keyword.
    destruct (contains (ch " ") k); split; try reflexivity; try discriminate.
    intros H. apply (f_equal (@List.length N)) in H.
    cbn [app] in H. rewrite length_cons, length_app in H. simpl in H. lia.
  - intros k. unfold quote_keyword.
    destruct (contains (ch " ") k); split; try reflexivity; try discriminate.
    intros H. apply (f_equal (@List.length N)) in H.
    rewrite length_cons, length_app in H. simpl in H. lia.
  - reflexivity.
Qed.

(** ** The organisation keywords *)

Lemma map_filter_comm (A B : Type) (f : A -> B) (p : B -> bool) (l : list A) :
  map f (filter (fun x => p (f x)) l) = filter p (map f l).
Proof.
  induction l as [|x l IH]; [reflexivity|]. cbn [map filter].
  destruct (p (f x)); cbn [map]; now rewrite IH.
Qed.

(** ** The CSV text *)

Lemma csv_count_app (s t : str) :
  forall q, csv_count q (s ++ t)
            = (csv_count q s + csv_count (csv_state q s) t)%nat.
Proof.
  induction s as [|c s IH]; intros q; [reflexivity|].
  cbn [app csv_count csv_state].
  destruct (c =? dquote); [apply IH|].
  destruct ((c =? LF) && negb q); rewrite IH; reflexivity.
Qed.

Lemma csv_state_app (s t : str) :
  forall q, csv_state q (s ++ t) = csv_state (csv_state q s) t.
Proof.
  induction s as [|c s IH]; intros q; [reflexivity|].
  cbn [app csv_state]. apply IH.
Qed.

(** A run without quote characters and line ends. *)
Lemma csv_plain (s : str) :
  contains dquote s = false -> contains LF s = false ->
  forall q, csv_count q s = 0%nat /\ csv_state q s = q.
Proof.
  induction s as [|c s IH]; intros Hq Hl q; [split; reflexivity|].
  rewrite contains_cons in Hq, Hl.
  apply orb_false_iff in Hq, Hl. destruct Hq as [Hq1 Hq2], Hl as [Hl1 Hl2].
  cbn [csv_count csv_state].
  rewrite N.eqb_sym in Hq1. rewrite N.eqb_sym in Hl1.
  rewrite Hq1, Hl1. cbn [andb]. now apply IH.
Qed.

(** Inside quotes: doubled quote characters keep the scanner inside, and
    line ends are not counted there. *)
Lemma csv_escaped (f : str) :
  let body :=
    flat_map (fun c => if c =? dquote then [dquote; dquote] else [c]) f in
  csv_count true body = 0%nat /\ csv_state true body = true.
Proof.
  induction f as [|c f [IH1 IH2]]; [split; reflexivity|].
  cbn [flat_map]. destruct (c =? dquote) eqn:E.
  - cbn [app csv_count csv_state]. rewrite N.eqb_refl. cbn [negb].
    now split.
  - cbn [app csv_count csv_state]. rewrite E, andb_false_r. now split.
Qed.

Lemma csv_special_excludes (c : N) (f : str) :
  existsb csv_special f = false -> csv_special c = true ->
  contains c f = false.
Proof.
  intros Hf Hc. destruct (contains c f) eqn:E; [|reflexivity].
  apply contains_In in E.
  assert (H : existsb csv_special f = true)
    by (apply existsb_exists; eauto).
  congruence.
Qed.

(** A written field leaves the scanner between fields and holds no
    record end. *)
Lemma csv_field_scan (f : str) :
  csv_count false (csv_field f) = 0%nat
  /\ csv_state false (csv_field f) = false.
Proof.
  unfold csv_field. destruct (existsb csv_special f) eqn:E.
  - destruct (csv_escaped f) as [H1 H2].
    cbn [csv_count csv_state]. rewrite N.eqb_refl. cbn [negb].
    rewrite csv_count_app, csv_state_app, H1, H2.
    cbn [csv_count csv_state]. rewrite N.eqb_refl. now split.
  - apply csv_plain; apply (csv_special_excludes _ _ E); reflexivity.
Qed.

Lemma csv_fields_scan (fields : list str) :
  let tail := flat_map (fun q => [ch ","] ++ q) (map csv_field fields) in
  csv_count false tail = 0%nat /\ csv_state false tail = false.
Proof.
  assert (Hc1 : csv_count false [ch ","] = 0%nat) by reflexivity.
  assert (Hc2 : csv_state false [ch ","] = false) by reflexivity.
  induction fields as [|g fields [IH1 IH2]]; [split; reflexivity|].
  cbn [map flat_map]. destruct (csv_field_scan g) as [Hg1 Hg2].
  rewrite !csv_count_app, !csv_state_app.
  rewrite Hc1, Hc2, Hg1, Hg2, IH1, IH2. now split.
Qed.

Lemma csv_join_scan (fields : list str) :
  csv_count false (join [ch ","] (map csv_field fields)) = 0%nat
  /\ csv_state false (join [ch ","] (map csv_field fields)) = false.
Proof.
  destruct fields as [|f fields]; [split; reflexivity|].
  cbn [map]. rewrite join_cons.
  destruct (csv_field_scan f) as [Hf1 Hf2].
  destruct (csv_fields_scan fields) as [Ht1 Ht2].
  rewrite csv_count_app, csv_state_app, Hf1, Hf2, Ht1, Ht2. now split.
Qed.

(** Each written record is one record for the scanner. *)
Lemma csv_record_scan (fields : list str) (t : str) :
  csv_count false (csv_record fields ++ t) = S (csv_count false t).
Proof.
  unfold csv_record. destruct (csv_join_scan fields) as [H1 H2].
  destruct (join [ch ","] (map csv_field fields)) as [|c line] eqn:E.
  - destruct fields; reflexivity.
  - assert (Hrec : csv_count false (((c :: line) ++ [CR; LF]) ++ t)
                   = S (csv_count false t)).
    { rewrite <- app_assoc, csv_count_app, H1, H2. reflexivity. }
    destruct fields; exact Hrec.
Qed.

Lemma csv_records_scan (rows : list (list str)) :
  csv_count false (flat_map csv_record rows) = List.length rows.
Proof.
  induction rows as [|r rows IH]; [reflexivity|].
  cbn [flat_map]. rewrite csv_record_scan, IH. reflexivity.
Qed.

Lemma csv_text_header (rows : list dict) :
  exists rest, csv_text rows = header_line ++ [CR; LF] ++ rest.
Proof.
  unfold csv_text. eexists.
  change (csv_record (map lit fieldnames)) with (header_line ++ [CR; LF]).
  rewrite <- app_assoc. reflexivity.
Qed.

Lemma csv_text_rows (rows : list dict) :
  csv_data_rows (csv_text rows)
  = match rows with [] => 1%nat | _ => List.length rows end.
Proof.
  unfold csv_data_rows, csv_text. rewrite csv_record_scan.
  rewrite flat_map_concat_map, <- (map_map row_values csv_record).
  rewrite <- flat_map_concat_map, csv_records_scan, length_map.
  destruct rows; reflexivity.
Qed.

Lemma build_rows_length (org_keywords : list str) (emails : list str) :
  forall rows,
    build_rows org_keywords emails = Ok rows ->
    List.length rows = List.length emails.
Proof.
  induction emails as [|e emails IH]; intros rows H.
  - injection H as <-. reflexivity.
  - cbn [build_rows] in H.
    destruct (build_row org_keywords e) as [row|]; [|discriminate].
    cbn [bind] in H.
    destruct (build_rows org_keywords emails) as [rest|]; [|discriminate].
    cbn [bind] in H. injection H as <-. cbn [List.length].
    now rewrite (IH rest).
Qed.

(** C3, as the code has it.  The text written by [write_csv] always
    starts with the header line.  For a non-empty list of accepted
    addresses it has one data row per address; for the empty list the
    code writes, after the header, one placeholder row of five empty
    fields. *)
Theorem csv_header_and_rows :
  (forall rows,
      (exists rest, csv_text rows = header_line ++ [CR; LF] ++ rest)
      /\ contains LF header_line = false
      /\ csv_data_rows (csv_text rows)
         = match rows with [] => 1%nat | _ => List.length rows end)
  /\ (forall org_keywords emails rows,
         build_rows org_keywords emails = Ok rows ->
         emails <> [] ->
         csv_data_rows (csv_text rows) = List.length emails)
  /\ csv_text [] = header_line ++ [CR; LF] ++ lit ",,,," ++ [CR; LF].
Proof.
  split; [|split].
  - intros rows. split; [apply csv_text_header|].
    split; [reflexivity | apply csv_text_rows].
  - intros org_keywords emails rows Hrows Hne.
    rewrite csv_text_rows. rewrite <- (build_rows_length _ _ _ Hrows).
    destruct rows; [|reflexivity].
    apply build_rows_length in Hrows. destruct emails; [congruence|].
    discriminate.
  - reflexivity.
Qed.

Lemma csv_header_and_rows_witness :
  csv_data_rows
    (csv_text
       (match build_rows DEFAULT_ORG_KEYWORDS
                (iter_emails example_lines) with
        | Ok rows => rows
        | Raise _ => []
        end))
  = 2%nat.
Proof.
  destruct (build_rows DEFAULT_ORG_KEYWORDS (iter_emails example_lines))
    as [rows|e] eqn:E; [|vm_compute in E; discriminate].
  apply (proj1 (proj2 csv_header_and_rows) _ _ _ E).
  vm_compute. discriminate.
Defined.

(** C3, at the empty list: no address is accepted, and the file has one
    data row. *)
Lemma csv_empty_input_has_one_row :
  iter_emails [] = []
  /\ build_rows DEFAULT_ORG_KEYWORDS (iter_emails []) = Ok []
  /\ csv_data_rows (csv_text []) = 1%nat
  /\ csv_data_rows (csv_text []) <> List.length (iter_emails []).
Proof.
  repeat split; try reflexivity. vm_compute. discriminate.
Qed.

(** ** UTF-8: decoding undoes encoding *)

Ltac Zify.zify_post_hook ::= Z.to_euclidean_division_equations.

(** Proves [b = true] or [b = false] for a test made of comparisons. *)
Ltac test_lia :=
  unfold is_cont, is_scalar in *; unfold in_range in *;
  repeat (progress
            rewrite ?andb_true_iff, ?orb_true_iff, ?negb_true_iff,
              ?andb_false_iff, ?orb_false_iff, ?negb_false_iff, ?N.leb_le,
              ?N.ltb_lt, ?N.eqb_eq, ?N.leb_gt, ?N.ltb_ge, ?N.eqb_neq in *);
  lia.

(** Settles the first test of the goal. *)
Ltac settle_test :=
  match goal with
  | [ |- context [if ?b then _ else _] ] =>
      first [ replace b with true by (symmetry; test_lia)
            | replace b with false by (symmetry; test_lia) ]
  end.

Lemma utf8_cp_roundtrip (c : N) :
  is_scalar c = true ->
  exists bs,
    utf8_encode_cp c = Some bs
    /\ Forall (fun b => b < 256) bs
    /\ forall rest,
        utf8_decode (bs ++ rest) = option_map (cons c) (utf8_decode rest).
Proof.
  intros Hs. unfold utf8_encode_cp.
  destruct (c <? 0x80) eqn:H1.
  { eexists. split; [reflexivity|]. split.
    - repeat constructor. test_lia.
    - intros rest. cbn [app utf8_decode]. now rewrite H1. }
  destruct (c <? 0x800) eqn:H2.
  { eexists. split; [reflexivity|]. split.
    - repeat constructor; test_lia.
    - intros rest. cbn [app utf8_decode]. repeat settle_test.
      f_equal. f_equal. test_lia. }
  destruct (c <? 0x10000) eqn:H3.
  { destruct (in_range 0xD800 0xDFFF c) eqn:H4; [exfalso; test_lia|].
    eexists. split; [reflexivity|]. split.
    - repeat constructor; test_lia.
    - intros rest. cbn [app utf8_decode]. cbv zeta. repeat settle_test.
      f_equal. f_equal. test_lia. }
  destruct (c <? 0x110000) eqn:H5; [|exfalso; test_lia].
  eexists. split; [reflexivity|]. split.
  - repeat constructor; test_lia.
  - intros rest. cbn [app utf8_decode]. cbv zeta. repeat settle_test.
    f_equal. f_equal. test_lia.
Qed.

Lemma utf8_roundtrip (s : str) :
  clean s ->
  exists bs,
    utf8_encode s = Some bs
    /\ Forall (fun b => b < 256) bs
    /\ utf8_decode bs = Some s.
Proof.
  induction s as [|c s IH]; intros H.
  - exists []. repeat split. constructor.
  - cbn [forallb] in H. apply andb_true_iff in H. destruct H as [Hc Hs].
    destruct (utf8_cp_roundtrip c Hc) as (b1 & E1 & F1 & D1).
    destruct (IH Hs) as (b2 & E2 & F2 & D2).
    exists (b1 ++ b2). cbn [utf8_encode]. rewrite E1, E2.
    split; [reflexivity|]. split.
    + apply Forall_app. now split.
    + rewrite D1, D2. reflexivity.
Qed.

(** A surrogate, or a number that is no code point, cannot be encoded. *)
Lemma utf8_encode_strict (s : str) :
  forallb is_scalar s = false -> utf8_encode s = None.
Proof.
  induction s as [|c s IH]; intros H; [discriminate|].
  cbn [forallb] in H. cbn [utf8_encode].
  destruct (is_scalar c) eqn:Hc.
  - cbn [andb] in H. rewrite (IH H). now destruct (utf8_encode_cp c).
  - replace (utf8_encode_cp c) with (@None (list N)); [reflexivity|].
    unfold utf8_encode_cp.
    destruct (c <? 0x80) eqn:H1; [exfalso; test_lia|].
    destruct (c <? 0x800) eqn:H2; [exfalso; test_lia|].
    destruct (c <? 0x10000) eqn:H3.
    + destruct (in_range 0xD800 0xDFFF c) eqn:H4;
        [reflexivity | exfalso; test_lia].
    + destruct (c <? 0x110000) eqn:H5; [exfalso; test_lia | reflexivity].
Qed.

(** ** Percent encoding: decoding undoes [quote_plus] *)

Lemma hex_value_digit (d : N) : d < 16 -> hex_value (hex_digit d) = Some d.
Proof.
  intros H. unfold hex_value, hex_digit, is_digit, ch. simpl N_of_ascii.
  destruct (d <? 10) eqn:E.
  - settle_test. f_equal. test_lia.
  - repeat settle_test. f_equal. test_lia.
Qed.

Lemma hex_digit_safe (d : N) : d < 16 -> always_safe (hex_digit d) = true.
Proof.
  intros H. unfold hex_digit.
  destruct (d <? 10) eqn:E; unfold always_safe, is_letter, is_upper,
    is_lower, is_digit, ch; simpl N_of_ascii; test_lia.
Qed.

Lemma always_safe_plain (c : N) :
  always_safe c = true ->
  (c =? ch " ") = false /\ (c =? ch "+") = false /\ (c =? ch "%") = false.
Proof.
  intros H. repeat split; apply N.eqb_neq; intros ->; discriminate.
Qed.

Section Quoter.

Variable safe : str.
Hypothesis safe_cases : safe = [] \/ safe = [ch " "].

Lemma safe_member (b : N) : contains b safe = true -> b = ch " ".
Proof.
  destruct safe_cases as [-> | ->]; [discriminate|].
  rewrite contains_cons. cbn [contains existsb]. rewrite orb_false_r.
  apply N.eqb_eq.
Qed.

Lemma form_byte_cases (b : N) :
  b < 256 ->
  (always_safe b = true /\ form_byte safe b = [b])
  \/ (b = ch " " /\ form_byte safe b = [ch "+"])
  \/ form_byte safe b
     = [ch "%"; hex_digit (b / 16); hex_digit (b mod 16)].
Proof.
  intros Hb. unfold form_byte, quote_byte.
  destruct (always_safe b) eqn:Hs; cbn [orb].
  - left. split; [reflexivity|].
    destruct (always_safe_plain b Hs) as (E & _).
    cbn [replace map]. now rewrite E.
  - destruct (contains b safe) eqn:Hc.
    + right. left. apply safe_member in Hc. subst b. now split.
    + right. right.
      assert (Hh : always_safe (hex_digit (b / 16)) = true)
        by (apply hex_digit_safe; test_lia).
      assert (Hl : always_safe (hex_digit (b mod 16)) = true)
        by (apply hex_digit_safe; test_lia).
      destruct (always_safe_plain _ Hh) as (Eh & _).
      destruct (always_safe_plain _ Hl) as (El & _).
      cbn [replace map]. now rewrite Eh, El.
Qed.

(** Decoding the form of a byte gives the byte back. *)
Lemma form_byte_decode (b : N) (rest : str) :
  b < 256 ->
  percent_decode (replace (ch "+") (ch " ") (form_byte safe b ++ rest))
  = b :: percent_decode (replace (ch "+") (ch " ") rest).
Proof.
  intros Hb.
  destruct (form_byte_cases b Hb) as [[Hs ->]|[[-> ->]| ->]].
  - destruct (always_safe_plain b Hs) as (_ & Ep & Ec).
    cbn [app replace map percent_decode]. rewrite Ep, Ec. reflexivity.
  - reflexivity.
  - assert (Hh : b / 16 < 16) by test_lia.
    assert (Hl : b mod 16 < 16) by test_lia.
    destruct (always_safe_plain _ (hex_digit_safe _ Hh)) as (_ & Eh & _).
    destruct (always_safe_plain _ (hex_digit_safe _ Hl)) as (_ & El & _).
    cbn [app replace map percent_decode]. rewrite Eh, El.
    change (ch "%" =? ch "+") with false. cbv iota.
    rewrite N.eqb_refl, (hex_value_digit _ Hh), (hex_value_digit _ Hl).
    f_equal. test_lia.
Qed.

Lemma form_byte_chars (b : N) :
  b < 256 -> forallb url_char (form_byte safe b) = true.
Proof.
  intros Hb.
  destruct (form_byte_cases b Hb) as [[Hs ->]|[[-> ->]| ->]].
  - cbn [forallb]. unfold url_char. now rewrite Hs.
  - reflexivity.
  - cbn [forallb]. unfold url_char at 2 3.
    rewrite !hex_digit_safe by test_lia. reflexivity.
Qed.

Lemma form_bytes_decode (bs : list N) :
  Forall (fun b => b < 256) bs ->
  percent_decode (replace (ch "+") (ch " ") (flat_map (form_byte safe) bs))
  = bs.
Proof.
  induction 1 as [|b bs Hb _ IH]; [reflexivity|].
  cbn [flat_map]. rewrite (form_byte_decode b _ Hb), IH. reflexivity.
Qed.

Lemma form_bytes_chars (bs : list N) :
  Forall (fun b => b < 256) bs ->
  forallb url_char (flat_map (form_byte safe) bs) = true.
Proof.
  induction 1 as [|b bs Hb _ IH]; [reflexivity|].
  cbn [flat_map]. rewrite forallb_app, (form_byte_chars b Hb), IH.
  reflexivity.
Qed.

End Quoter.

Lemma replace_flat_map (a b : N) (f : N -> str) (l : list N) :
  replace a b (flat_map f l) = flat_map (fun x => replace a b (f x)) l.
Proof.
  unfold replace. induction l as [|x l IH]; [reflexivity|].
  cbn [flat_map]. now rewrite map_app, IH.
Qed.

(** Without a space in the safe set nothing is left for [replace]. *)
Lemma quote_byte_no_space (b : N) :
  replace (ch " ") (ch "+") (quote_byte [] b) = quote_byte [] b.
Proof.
  unfold quote_byte. cbn [contains existsb]. rewrite orb_false_r.
  destruct (always_safe b) eqn:Hs.
  - destruct (always_safe_plain b Hs) as (E & _).
    cbn [replace map]. now rewrite E.
  - cbn [replace map].
    change (ch "%" =? ch " ") with false. cbv iota.
    assert (H : forall d, (hex_digit d =? ch " ") = false).
    { intros d. unfold hex_digit, ch. simpl N_of_ascii.
      destruct (d <? 10); test_lia. }
    now rewrite !H.
Qed.

(** The structure of the output of [quote_plus]. *)
Lemma quote_plus_forms (q : str) :
  clean q ->
  exists bs safe,
    (safe = [] \/ safe = [ch " "])
    /\ Forall (fun b => b < 256) bs
    /\ utf8_decode bs = Some q
    /\ quote_plus q = Some (flat_map (form_byte safe) bs).
Proof.
  intros Hq. destruct (utf8_roundtrip q Hq) as (bs & He & Hb & Hd).
  unfold quote_plus, quote. destruct q as [|c q].
  - injection He as <-. exists [], []. cbn. auto.
  - cbn [truthy negb]. rewrite He.
    destruct (contains (ch " ") (c :: q)); cbn [negb].
    + exists bs, [ch " "]. repeat split; auto.
      now rewrite replace_flat_map.
    + exists bs, []. repeat split; auto. f_equal.
      unfold form_byte. clear. induction bs as [|b bs IH]; [reflexivity|].
      cbn [flat_map]. now rewrite IH, quote_byte_no_space.
Qed.

(** *** The output, code point by code point *)

Lemma utf8_encode_cp_bytes (s : str) (bs : list N) :
  utf8_encode s = Some bs -> bs = flat_map cp_bytes s.
Proof.
  revert bs. induction s as [|c s IH]; intros bs H.
  - injection H as <-. reflexivity.
  - cbn [utf8_encode] in H. cbn [flat_map]. unfold cp_bytes at 1.
    destruct (utf8_encode_cp c) as [b1|]; [|discriminate].
    destruct (utf8_encode s) as [b2|]; [|discriminate].
    injection H as <-. now rewrite (IH b2).
Qed.

Lemma flat_map_flat_map (A B C : Type) (f : B -> list C) (g : A -> list B)
    (l : list A) :
  flat_map f (flat_map g l) = flat_map (fun x => flat_map f (g x)) l.
Proof.
  induction l as [|x l IH]; [reflexivity|].
  cbn [flat_map]. now rewrite flat_map_app, IH.
Qed.

(** The bytes of a code point other than the space are not spaces. *)
Lemma cp_bytes_no_space (c : N) :
  c <> ch " " -> forall b, In b (cp_bytes c) -> b <> ch " ".
Proof.
  intros Hc b Hb. unfold cp_bytes, utf8_encode_cp in Hb.
  unfold ch in *. simpl N_of_ascii in *.
  destruct (c <? 0x80); [destruct Hb as [<-|[]]; assumption|].
  destruct (c <? 0x800);
    [destruct Hb as [<-|[<-|[]]]; lia|].
  destruct (c <? 0x10000).
  - destruct (in_range 0xD800 0xDFFF c); [destruct Hb|].
    destruct Hb as [<-|[<-|[<-|[]]]]; lia.
  - destruct (c <? 0x110000); [|destruct Hb].
    destruct Hb as [<-|[<-|[<-|[<-|[]]]]]; lia.
Qed.

Lemma form_byte_not_space (b : N) :
  b <> ch " " -> form_byte [ch " "] b = quote_byte [] b.
Proof.
  intros Hb. unfold form_byte. rewrite <- quote_byte_no_space.
  f_equal. unfold quote_byte. cbn [contains existsb].
  apply N.eqb_neq in Hb. now rewrite Hb.
Qed.

Lemma flat_map_ext_in (A B : Type) (f g : A -> list B) (l : list A) :
  (forall x, In x l -> f x = g x) -> flat_map f l = flat_map g l.
Proof.
  induction l as [|x l IH]; intros H; [reflexivity|].
  cbn [flat_map]. rewrite (H x), IH; auto using in_eq, in_cons.
Qed.

(** [quote_plus] works code point by code point. *)
Lemma quote_plus_encode_cp (q : str) :
  clean q -> quote_plus q = Some (flat_map encode_cp q).
Proof.
  intros Hq. destruct (utf8_roundtrip q Hq) as (bs & He & _ & _).
  pose proof (utf8_encode_cp_bytes _ _ He) as Hbs.
  unfold quote_plus, quote. destruct q as [|c q].
  - reflexivity.
  - cbn [truthy negb]. rewrite He.
    destruct (contains (ch " ") (c :: q)) eqn:Hsp; cbn [negb]; f_equal.
    + rewrite replace_flat_map, Hbs, flat_map_flat_map. reflexivity.
    + rewrite Hbs, flat_map_flat_map. apply flat_map_ext_in.
      intros x Hx. unfold encode_cp. apply flat_map_ext_in.
      intros b Hb. symmetry. apply form_byte_not_space.
      apply (cp_bytes_no_space x); [|assumption].
      intros ->. apply contains_In in Hx. congruence.
Qed.

(** ** The links and their query parameter *)

Lemma split1_absent (sep : N) (s : str) :
  contains sep s = false -> split1 sep s = [s].
Proof.
  induction s as [|c r IH]; intros H; [reflexivity|].
  rewrite contains_cons in H. apply orb_false_iff in H.
  destruct H as [Hc Hr]. cbn [split1].
  rewrite N.eqb_sym, Hc, (IH Hr). reflexivity.
Qed.

Lemma strip_prefix_app (p s : str) : strip_prefix p (p ++ s) = Some s.
Proof.
  induction p as [|a p IH]; [now destruct s|].
  cbn [app strip_prefix]. now rewrite N.eqb_refl.
Qed.

(** Reading back the parameter that was appended to an endpoint. *)
Lemma query_param_appended (base name enc : str) :
  contains (ch "#") base = false -> contains (ch "?") base = false ->
  contains (ch "#") name = false -> contains (ch "&") name = false ->
  forallb url_char enc = true ->
  query_param name (base ++ ch "?" :: name ++ ch "=" :: enc) = Some enc.
Proof.
  intros Hb1 Hb2 Hn1 Hn2 He.
  assert (He1 : contains (ch "#") enc = false)
    by now apply (forallb_excludes url_char).
  assert (He2 : contains (ch "&") enc = false)
    by now apply (forallb_excludes url_char).
  unfold query_param. rewrite split1_absent.
  - rewrite (split1_first _ _ _ Hb2), split_absent.
    + cbn [find_param].
      replace (name ++ ch "=" :: enc) with ((name ++ [ch "="]) ++ enc)
        by now rewrite <- app_assoc.
      now rewrite strip_prefix_app.
    + rewrite contains_app, contains_cons, Hn2, He2. reflexivity.
  - rewrite contains_app, !contains_cons, contains_app, contains_cons.
    rewrite Hb1, Hn1, He1. reflexivity.
Qed.

Lemma build_search_links_raises (query : str) :
  forallb is_scalar query = false ->
  build_search_links query = Raise UnicodeEncodeError.
Proof.
  intros H. unfold build_search_links, quote_plus, quote.
  rewrite (utf8_encode_strict _ H).
  destruct query as [|c q]; [discriminate|]. cbn [truthy negb].
  now destruct (contains (ch " ") (c :: q)).
Qed.

(** C7, as the code has it.  For a query made of code points that UTF-8
    can encode (no surrogate), [build_search_links] returns the three
    URLs: the Google, Bing and Yandex endpoints followed by the encoded
    query as parameter [q], [q] and [text].  The query is encoded code
    point by code point, a space as "+"; the result has only unreserved
    characters, "%" and "+".  Reading the parameter back and decoding it
    gives the query again. *)
Theorem build_search_links_roundtrip (query : str) :
  clean query ->
  exists enc links,
    quote_plus query = Some enc
    /\ enc = flat_map encode_cp query
    /\ encode_cp (ch " ") = [ch "+"]
    /\ build_search_links query = Ok links
    /\ map fst links = ["Google"; "Bing"; "Yandex"]%string
    /\ dict_get "Google" links []
       = lit "https://www.google.com/search?q=" ++ enc
    /\ dict_get "Bing" links []
       = lit "https://www.bing.com/search?q=" ++ enc
    /\ dict_get "Yandex" links []
       = lit "https://yandex.com/search/?text=" ++ enc
    /\ forallb url_char enc = true
    /\ contains (ch " ") enc = false
    /\ unquote_plus enc = Some query
    /\ decoded_param (lit "q") (dict_get "Google" links []) = Some query
    /\ decoded_param (lit "q") (dict_get "Bing" links []) = Some query
    /\ decoded_param (lit "text") (dict_get "Yandex" links []) = Some query.
Proof.
  intros Hq.
  destruct (quote_plus_forms query Hq) as (bs & safe & Hs & Hb & Hd & He).
  pose proof (form_bytes_chars safe Hs bs Hb) as Hc.
  pose proof (form_bytes_decode safe Hs bs Hb) as Hp.
  pose proof (quote_plus_encode_cp query Hq) as Hcp.
  rewrite He in Hcp. injection Hcp as Hcp.
  set (enc := flat_map (form_byte safe) bs) in *.
  assert (Hu : unquote_plus enc = Some query).
  { unfold unquote_plus. now rewrite Hp. }
  exists enc. eexists.
  split; [exact He|]. split; [exact Hcp|]. split; [reflexivity|].
  split; [unfold build_search_links; rewrite He; reflexivity|].
  split; [reflexivity|].
  split; [reflexivity|]. split; [reflexivity|]. split; [reflexivity|].
  split; [exact Hc|].
  split; [now apply (forallb_excludes url_char)|].
  split; [exact Hu|].
  cbn [dict_set dict_get String.eqb Ascii.eqb Bool.eqb].
  unfold decoded_param.
  change (lit "https://www.google.com/search?q=" ++ enc)
    with (lit "https://www.google.com/search"
            ++ ch "?" :: lit "q" ++ ch "=" :: enc).
  change (lit "https://www.bing.com/search?q=" ++ enc)
    with (lit "https://www.bing.com/search"
            ++ ch "?" :: lit "q" ++ ch "=" :: enc).
  change (lit "https://yandex.com/search/?text=" ++ enc)
    with (lit "https://yandex.com/search/"
            ++ ch "?" :: lit "text" ++ ch "=" :: enc).
  rewrite !query_param_appended by (reflexivity || exact Hc).
  auto.
Qed.

Lemma build_search_links_roundtrip_witness :
  exists enc,
    quote_plus (build_query (lit "doe") DEFAULT_ORG_KEYWORDS) = Some enc
    /\ unquote_plus enc = Some (build_query (lit "doe") DEFAULT_ORG_KEYWORDS).
Proof.
  destruct (build_search_links_roundtrip
              (build_query (lit "doe") DEFAULT_ORG_KEYWORDS) eq_refl)
    as (enc & links & He & _ & _ & _ & _ & _ & _ & _ & _ & _ & Hu & _).
  exists enc. split; [exact He | exact Hu].
Defined.

(** C7, at a query with a lone surrogate: [quote_plus] raises
    [UnicodeEncodeError], no link is returned, and a run of [main] with
    such an override ends in that exception. *)
Lemma build_search_links_surrogate :
  build_search_links [0xDC80] = Raise UnicodeEncodeError
  /\ (forall links, build_search_links [0xDC80] <> Ok links)
  /\ main surrogate_args example_world = Raise UnicodeEncodeError.
Proof.
  split; [reflexivity|]. split; [discriminate|]. vm_compute. reflexivity.
Qed.

(** ** Rows from keywords that can be encoded *)

Lemma split_chars (sep : N) (s : str) (c : N) :
  forall p, In p (split sep s) -> In c p -> In c s.
Proof.
  induction s as [|a s IH]; intros p Hp Hc.
  - destruct Hp as [<-|[]]. destruct Hc.
  - cbn [split] in Hp. destruct (a =? sep).
    + destruct Hp as [<-|Hp]; [destruct Hc|]. right. eauto.
    + destruct (split sep s) as [|h t] eqn:E.
      * destruct Hp as [<-|[]]. destruct Hc as [<-|[]]. now left.
      * destruct Hp as [<-|Hp].
        -- destruct Hc as [<-|Hc]; [now left|].
           right. apply (IH h); [now left | assumption].
        -- right. apply (IH p); [now right | assumption].
Qed.

Lemma lstrip_chars (s : str) (c : N) : In c (lstrip s) -> In c s.
Proof.
  induction s as [|a s IH]; [auto|]. cbn [lstrip].
  destruct (isspace a); [|auto]. intros H. right. auto.
Qed.

Lemma strip_chars (s : str) (c : N) : In c (strip s) -> In c s.
Proof.
  unfold strip, rstrip. intros H. apply in_rev, lstrip_chars in H.
  apply in_rev in H. now apply lstrip_chars.
Qed.

Lemma extract_surname_hint_chars (local : str) (c : N) :
  In c (extract_surname_hint local) -> In c local.
Proof.
  unfold extract_surname_hint. rewrite surname_loop_rule.
  destruct (surname_rule_first local separators)
    as [(before & sep & after & _ & _ & Hlen & ->)|[_ ->]]; [|auto].
  intros Hc. apply (split_chars sep local c (last (fragments sep local) []));
    [|assumption].
  assert (Hin : In (last (fragments sep local) []) (fragments sep local)).
  { apply last_In. intros E. rewrite E in Hlen. simpl in Hlen. lia. }
  unfold fragments in Hin. apply filter_In in Hin. tauto.
Qed.

Lemma local_char_scalar (c : N) : local_char c = true -> is_scalar c = true.
Proof.
  intros H. destruct (is_scalar c) eqn:E; [reflexivity|]. exfalso.
  unfold local_char, is_letter, is_upper, is_lower, is_digit, ch in H.
  simpl N_of_ascii in H. test_lia.
Qed.

Lemma clean_app (s t : str) : clean s -> clean t -> clean (s ++ t).
Proof. unfold clean. intros Hs Ht. now rewrite forallb_app, Hs, Ht. Qed.

Lemma clean_subset (s t : str) :
  (forall c, In c s -> In c t) -> clean t -> clean s.
Proof.
  unfold clean. rewrite !forallb_forall. auto.
Qed.

Lemma clean_join (sep : str) (parts : list str) :
  clean sep -> Forall clean parts -> clean (join sep parts).
Proof.
  intros Hsep. induction 1 as [|p parts Hp _ IH]; [reflexivity|].
  destruct parts as [|p' parts]; [exact Hp|].
  change (join sep (p :: p' :: parts))
    with (p ++ sep ++ join sep (p' :: parts)).
  auto using clean_app.
Qed.

Lemma clean_build_query (surname : str) (org_keywords : list str) :
  clean surname -> Forall clean org_keywords ->
  clean (build_query surname org_keywords).
Proof.
  intros Hs Hk. unfold build_query.
  assert (Hd : clean [dquote]) by reflexivity.
  apply clean_app; [reflexivity|].
  apply (clean_app [dquote]); [exact Hd|].
  apply clean_app; [exact Hs|].
  apply (clean_app [dquote]); [exact Hd|].
  apply clean_app; [reflexivity|].
  apply clean_app; [|reflexivity].
  apply clean_join; [reflexivity|].
  apply Forall_map. apply Forall_impl with (2 := Hk).
  intros kw Hkw. unfold quote_keyword.
  destruct (contains (ch " ") kw); [|exact Hkw].
  apply (clean_app [dquote]); [exact Hd|]. now apply clean_app.
Qed.

Lemma build_row_ok (org_keywords : list str) (e : str) :
  Forall clean org_keywords -> email_shape e ->
  exists row, build_row org_keywords e = Ok row.
Proof.
  intros Hk Hs.
  destruct (shape_split e Hs) as (local & domain & Hsplit & _ & _ & Hl).
  unfold build_row. rewrite Hsplit. cbn [unpack2 bind fst].
  assert (Hq : clean (build_query (extract_surname_hint local) org_keywords)).
  { apply clean_build_query; [|assumption].
    apply clean_subset with (t := local).
    - apply extract_surname_hint_chars.
    - unfold clean. rewrite forallb_forall in *.
      intros c Hc. apply local_char_scalar. auto. }
  destruct (quote_plus_forms _ Hq) as (bs & safe & _ & _ & _ & He).
  unfold build_search_links. rewrite He. cbn [bind]. eauto.
Qed.

Lemma build_rows_ok (org_keywords : list str) (emails : list str) :
  Forall clean org_keywords -> Forall email_shape emails ->
  exists rows, build_rows org_keywords emails = Ok rows.
Proof.
  intros Hk. induction 1 as [|e emails He _ [rows IH]].
  - exists []. reflexivity.
  - destruct (build_row_ok org_keywords e Hk He) as [row Hrow].
    exists (row :: rows). cbn [build_rows]. rewrite Hrow. cbn [bind].
    rewrite IH. reflexivity.
Qed.

Lemma iter_emails_shape (lines : list str) :
  Forall email_shape (iter_emails lines).
Proof.
  apply Forall_forall. intros e He. apply iter_emails_In in He.
  destruct He as (_ & _ & _ & Hs). exact Hs.
Qed.

Lemma org_keywords_clean (o : option str) :
  match o with Some s => clean s | None => True end ->
  Forall clean (org_keywords_of o).
Proof.
  assert (Hd : Forall clean DEFAULT_ORG_KEYWORDS)
    by (repeat constructor).
  destruct o as [s|]; [|intros _; exact Hd].
  intros Hs. unfold org_keywords_of.
  destruct (truthy s); [|exact Hd]. unfold or_else.
  match goal with
  | [ |- Forall _ (match ?l with _ => _ end) ] =>
      assert (Hl : Forall clean l); [|destruct l; [exact Hd | exact Hl]]
  end.
  apply Forall_forall. intros kw Hkw.
  apply in_map_iff in Hkw. destruct Hkw as (piece & <- & Hin).
  apply filter_In in Hin. destruct Hin as [Hin _].
  apply clean_subset with (t := s); [|exact Hs].
  intros c Hc. apply strip_chars in Hc. eapply split_chars; eassumption.
Qed.

(* ================================================================= *)
(** * Part III: further properties of the code *)
(* ================================================================= *)

(** ** Pieces of a split string *)

Lemma split_not_nil (sep : N) (s : str) : split sep s <> [].
Proof.
  destruct s as [|c s]; [discriminate|]. cbn [split].
  destruct (c =? sep); [discriminate|].
  destruct (split sep s); discriminate.
Qed.

(** The first piece is the part before the first separator. *)
Lemma split_head_prefix (sep : N) (s : str) :
  forall h t, split sep s = h :: t -> exists post, s = h ++ post.
Proof.
  induction s as [|c s IH]; intros h t H.
  - injection H as <- _. now exists [].
  - cbn [split] in H. destruct (c =? sep).
    + injection H as <- _. now exists (c :: s).
    + destruct (split sep s) as [|h' t'] eqn:E.
      * injection H as <- _. now exists s.
      * injection H as <- _. destruct (IH h' t' eq_refl) as [post ->].
        now exists post.
Qed.

Lemma split_piece_substring (sep : N) (s : str) :
  forall p, In p (split sep s) -> exists pre post, s = pre ++ p ++ post.
Proof.
  induction s as [|c s IH]; intros p Hp.
  - destruct Hp as [<-|[]]. now exists [], [].
  - cbn [split] in Hp. destruct (c =? sep).
    + destruct Hp as [<-|Hp]; [now exists [], (c :: s)|].
      destruct (IH p Hp) as (pre & post & ->). now exists (c :: pre), post.
    + destruct (split sep s) as [|h t] eqn:E.
      * destruct Hp as [<-|[]]. now exists [], s.
      * destruct Hp as [<-|Hp].
        -- destruct (split_head_prefix sep s h t E) as [post ->].
           now exists [], post.
        -- destruct (IH p (or_intror Hp)) as (pre & post & ->).
           now exists (c :: pre), post.
Qed.

Lemma split_piece_no_sep (sep : N) (s : str) :
  forall p, In p (split sep s) -> contains sep p = false.
Proof.
  induction s as [|c s IH]; intros p Hp.
  - destruct Hp as [<-|[]]. reflexivity.
  - cbn [split] in Hp. destruct (c =? sep) eqn:Hc.
    + destruct Hp as [<-|Hp]; [reflexivity | auto].
    + destruct (split sep s) as [|h t] eqn:E.
      * destruct Hp as [<-|[]]. rewrite contains_cons, N.eqb_sym, Hc.
        reflexivity.
      * destruct Hp as [<-|Hp]; [|apply IH; now right].
        rewrite contains_cons, N.eqb_sym, Hc. apply IH. now left.
Qed.

(** ** More on the surname hint *)

Lemma substring_length (s pre p post : str) :
  s = pre ++ p ++ post ->
  (List.length p <= List.length s)%nat
  /\ (List.length p = List.length s -> p = s).
Proof.
  intros ->. rewrite !length_app. split; [lia|]. intros H.
  assert (Hpre : pre = []) by (apply length_zero_iff_nil; lia).
  assert (Hpost : post = []) by (apply length_zero_iff_nil; lia).
  subst. now rewrite app_nil_r.
Qed.

(** X1. The hint is a contiguous part of the local part.  Either it is
    the local part itself, or it is a non-empty, strictly shorter part
    that is free of one of the three separators, a separator the local
    part does contain. *)
Theorem extract_surname_hint_part (local : str) :
  (exists pre post, local = pre ++ extract_surname_hint local ++ post)
  /\ (extract_surname_hint local = local
      \/ exists sep,
          In sep separators
          /\ contains sep local = true
          /\ contains sep (extract_surname_hint local) = false
          /\ extract_surname_hint local <> []
          /\ (List.length (extract_surname_hint local)
              < List.length local)%nat).
Proof.
  unfold extract_surname_hint. rewrite surname_loop_rule.
  destruct (surname_rule_first local separators)
    as [(before & sep & after & Hsep & _ & Hlen & ->)|[_ ->]].
  - assert (Hin : In (last (fragments sep local) []) (fragments sep local)).
    { apply last_In. intros E. rewrite E in Hlen. simpl in Hlen. lia. }
    pose proof (fragments_nonempty _ _ _ Hin) as Hne.
    unfold fragments in Hin. apply filter_In in Hin. destruct Hin as [Hin _].
    fold (fragments sep local) in Hin.
    destruct (split_piece_substring _ _ _ Hin) as (pre & post & Hsub).
    pose proof (split_piece_no_sep _ _ _ Hin) as Hfree.
    split; [eauto|]. right. exists sep.
    assert (Hhas : contains sep local = true).
    { destruct (contains sep local) eqn:E; [reflexivity|].
      pose proof (fragments_absent _ _ E). lia. }
    split; [rewrite Hsep; apply in_elt|].
    repeat split; auto.
    destruct (substring_length _ _ _ _ Hsub) as [Hle Heq].
    destruct (Nat.eq_dec (List.length (last (fragments sep local) []))
                (List.length local)) as [E|E]; [|lia].
    rewrite (Heq E) in Hfree. congruence.
  - split; [exists [], []; now rewrite app_nil_r | now left].
Qed.

(** ** More on the filter *)

Lemma first_occurrences_fixed (l : list str) :
  forall seen,
    NoDup l -> (forall x, In x l -> ~ In x seen) ->
    first_occurrences seen l = l.
Proof.
  induction l as [|x l IH]; intros seen Hnd Hseen; [reflexivity|].
  cbn [first_occurrences]. inversion Hnd as [|? ? Hx Hl]; subst.
  destruct (mem x seen) eqn:Hm.
  - apply mem_In in Hm. exfalso. apply (Hseen x); [now left | assumption].
  - f_equal. apply IH; [assumption|].
    intros y Hy [<-|Hin]; [contradiction|].
    apply (Hseen y); [now right | assumption].
Qed.

Lemma valid_line_of_shape (e : str) : email_shape e -> valid_line e = true.
Proof.
  intros Hs. rewrite <- (shape_strip e Hs). apply valid_line_shape.
  now rewrite (shape_strip e Hs).
Qed.

Lemma filter_fixed (A : Type) (p : A -> bool) (l : list A) :
  (forall x, In x l -> p x = true) -> filter p l = l.
Proof.
  induction l as [|x l IH]; intros H; [reflexivity|].
  cbn [filter]. rewrite (H x (or_introl eq_refl)). f_equal.
  apply IH. intros y Hy. apply H. now right.
Qed.

Lemma map_fixed (A : Type) (f : A -> A) (l : list A) :
  (forall x, In x l -> f x = x) -> map f l = l.
Proof.
  induction l as [|x l IH]; intros H; [reflexivity|].
  cbn [map]. rewrite (H x (or_introl eq_refl)). f_equal.
  apply IH. intros y Hy. apply H. now right.
Qed.

(** X2. Filtering twice is filtering once, and the result depends on the
    lines only through their trimmed forms: white space around a line,
    its line end included, never matters. *)
Theorem iter_emails_idempotent :
  (forall lines, iter_emails (iter_emails lines) = iter_emails lines)
  /\ (forall lines lines',
         map strip lines = map strip lines' ->
         iter_emails lines = iter_emails lines')
  /\ (forall lines,
         iter_emails (map (fun l => l ++ [LF]) lines) = iter_emails lines).
Proof.
  assert (Hdep : forall lines lines',
             map strip lines = map strip lines' ->
             iter_emails lines = iter_emails lines').
  { intros lines lines' H. unfold iter_emails.
    rewrite !iter_emails_first_occurrences. now rewrite H. }
  split; [|split; [exact Hdep|]].
  - intros lines.
    assert (Hshape : forall e, In e (iter_emails lines) -> email_shape e).
    { intros e He. apply iter_emails_In in He.
      destruct He as (_ & _ & _ & Hs). exact Hs. }
    unfold iter_emails at 1. rewrite iter_emails_first_occurrences.
    rewrite map_fixed by (intros e He; apply shape_strip; auto).
    rewrite filter_fixed by (intros e He; apply valid_line_of_shape; auto).
    apply first_occurrences_fixed; [|intros x _ []].
    unfold iter_emails. rewrite iter_emails_first_occurrences.
    apply first_occurrences_NoDup.
  - intros lines. apply Hdep. rewrite map_map. apply map_ext.
    intros l. unfold strip at 1. unfold rstrip.
    assert (Hl : forall s, lstrip (s ++ [LF]) = lstrip s ++ [LF]
                           \/ (lstrip (s ++ [LF]) = [] /\ lstrip s = [])).
    { induction s as [|c s IH]; [right; split; reflexivity|].
      cbn [app lstrip]. destruct (isspace c); [exact IH | now left]. }
    destruct (Hl l) as [E|[E1 E2]].
    + rewrite E, rev_app_distr. cbn [rev app lstrip].
      change (isspace LF) with true. cbv iota. reflexivity.
    + rewrite E1. unfold strip, rstrip. rewrite E2. reflexivity.
Qed.

Lemma iter_emails_idempotent_witness :
  iter_emails (map (fun l => [ch " "] ++ l) example_lines)
  = iter_emails example_lines.
Proof.
  apply (proj1 (proj2 iter_emails_idempotent)). reflexivity.
Defined.

(** The characters of an address. *)
Lemma shape_char_set (e : str) (c : N) :
  email_shape e -> In c e -> local_char c = true \/ c = ch "@".
Proof.
  intros Hs Hc. destruct (local_char c) eqn:El; [now left|]. right.
  destruct (N.eq_dec c (ch "@")) as [E|E]; [assumption|].
  pose proof (shape_chars e Hs c El E) as H.
  apply contains_In in Hc. congruence.
Qed.

Lemma count_occ_absent (c : N) (s : str) :
  contains c s = false -> count_occ N.eq_dec s c = 0%nat.
Proof.
  intros H. apply count_occ_not_In. intros Hin.
  apply contains_In in Hin. congruence.
Qed.

(** X3. An accepted address has exactly one "@"; its characters are
    ASCII letters, digits, ".", "_", "+", "-" and that "@", so it has no
    white space, no comma and no quote; it has at least six characters.
    No more addresses are yielded than there are lines. *)
Theorem yielded_email_characters (lines : list str) :
  Forall (fun e =>
            count_occ N.eq_dec e (ch "@") = 1%nat
            /\ (forall c, In c e ->
                          (local_char c = true \/ c = ch "@")
                          /\ c < 128 /\ isspace c = false
                          /\ csv_special c = false)
            /\ (6 <= List.length e)%nat)
         (iter_emails lines)
  /\ (List.length (iter_emails lines) <= List.length lines)%nat.
Proof.
  split.
  - apply Forall_forall. intros e He. apply iter_emails_In in He.
    destruct He as (_ & _ & _ & Hs). split; [|split].
    + destruct Hs as (loc & dom & tld & -> & _ & Hl & _ & Hd & _ & Ht).
      rewrite count_occ_app. cbn [count_occ].
      destruct (N.eq_dec (ch "@") (ch "@")) as [_|E]; [|congruence].
      rewrite count_occ_app. cbn [count_occ].
      destruct (N.eq_dec (ch ".") (ch "@")) as [E|_]; [discriminate|].
      rewrite (count_occ_absent _ loc), (count_occ_absent _ dom),
        (count_occ_absent _ tld); [reflexivity| | |].
      * now apply (forallb_excludes is_letter).
      * now apply (forallb_excludes domain_char).
      * now apply (forallb_excludes local_char).
    + intros c Hc. destruct (shape_char_set e c Hs Hc) as [H|H].
      * split; [now left|]. split; [|split].
        -- clear - H. class_lia.
        -- now apply local_char_not_space.
        -- destruct (csv_special c) eqn:E; [|reflexivity].
           clear - H E. class_lia.
      * subst c. split; [now right|]. repeat split.
    + destruct Hs as (loc & dom & tld & -> & Hl & _ & Hd & _ & Ht & _).
      rewrite length_app. cbn [List.length]. rewrite length_app.
      cbn [List.length]. destruct loc; [congruence|].
      destruct dom; [congruence|]. cbn [List.length]. lia.
  - unfold iter_emails. generalize (@nil str).
    induction lines as [|raw lines IH]; intros seen; [apply Nat.le_refl|].
    rewrite iter_emails_from_cons. cbn [List.length].
    destruct (valid_line (strip raw) && negb (mem (strip raw) seen)).
    + cbn [List.length]. apply le_n_S, IH.
    + apply Nat.le_trans with (1 := IH seen). apply Nat.le_succ_diag_r.
Qed.

(** ** More on [strip] *)

Lemma lstrip_spaces (s : str) :
  exists sp, s = sp ++ lstrip s /\ forallb isspace sp = true.
Proof.
  induction s as [|c s (sp & IH & Hsp)]; [now exists []|].
  cbn [lstrip]. destruct (isspace c) eqn:E.
  - exists (c :: sp). cbn [app forallb]. rewrite E, Hsp.
    split; [now f_equal | reflexivity].
  - now exists [].
Qed.

(** What [strip] leaves is a part of the string. *)
Lemma strip_substring (s : str) : exists pre post, s = pre ++ strip s ++ post.
Proof.
  unfold strip, rstrip.
  destruct (lstrip_spaces s) as (pre & Hs & _).
  destruct (lstrip_spaces (rev (lstrip s))) as (sp & Hr & _).
  exists pre, (rev sp). rewrite <- rev_app_distr, <- Hr, rev_involutive.
  exact Hs.
Qed.

Lemma strip_head (s : str) (c : N) (r : str) :
  strip s = c :: r -> isspace c = false.
Proof.
  unfold strip, rstrip. intros H.
  destruct (lstrip_spaces (rev (lstrip s))) as (sp & Hr & _).
  apply (f_equal (@rev N)) in Hr.
  rewrite rev_involutive, rev_app_distr, H in Hr.
  apply (lstrip_head s c (r ++ rev sp)). exact Hr.
Qed.

Lemma strip_nonspace_ends (x : str) :
  (forall c r, x = c :: r -> isspace c = false) ->
  (forall m z, x = m ++ [z] -> isspace z = false) ->
  strip x = x.
Proof.
  intros Hhead Hlast. destruct x as [|c r]; [reflexivity|].
  unfold strip, rstrip. rewrite (lstrip_fixed c r (Hhead c r eq_refl)).
  destruct (rev (c :: r)) as [|z m] eqn:E.
  - apply (f_equal (@rev N)) in E. rewrite rev_involutive in E.
    discriminate.
  - assert (Hx : c :: r = rev m ++ [z]).
    { apply (f_equal (@rev N)) in E. now rewrite rev_involutive in E. }
    rewrite (lstrip_fixed z m (Hlast _ _ Hx)). now rewrite Hx.
Qed.

Lemma strip_idempotent (s : str) : strip (strip s) = strip s.
Proof.
  apply strip_nonspace_ends.
  - intros c r H. now apply (strip_head s c r).
  - intros m z H. now apply (strip_last s m z).
Qed.

(** ** The keyword list is well formed *)

Lemma substring_trans (s t u : str) :
  (exists pre post, s = pre ++ t ++ post) ->
  (exists pre post, t = pre ++ u ++ post) ->
  exists pre post, s = pre ++ u ++ post.
Proof.
  intros (p1 & q1 & ->) (p2 & q2 & ->).
  exists (p1 ++ p2), (q2 ++ q1). now rewrite <- !app_assoc.
Qed.

(** X4. Whatever the override, the keyword list is never empty, and every
    keyword is non-empty, has no white space at either end and no ";".
    With an override the list is either the default list or made of
    parts of the override, in their order. *)
Theorem org_keywords_well_formed (o : option str) :
  org_keywords_of o <> []
  /\ Forall (fun kw => kw <> [] /\ strip kw = kw
                       /\ contains (ch ";") kw = false)
            (org_keywords_of o)
  /\ (org_keywords_of o = DEFAULT_ORG_KEYWORDS
      \/ exists s,
          o = Some s
          /\ org_keywords_of o
             = filter truthy (map strip (split (ch ";") s))
          /\ Forall (fun kw => exists pre post, s = pre ++ kw ++ post)
                    (org_keywords_of o)).
Proof.
  assert (Hd : Forall (fun kw => kw <> [] /\ strip kw = kw
                                 /\ contains (ch ";") kw = false)
                      DEFAULT_ORG_KEYWORDS).
  { repeat constructor; discriminate. }
  destruct o as [s|]; cbn [org_keywords_of];
    [|split; [discriminate | split; [exact Hd | now left]]].
  destruct (truthy s);
    [|split; [discriminate | split; [exact Hd | now left]]].
  rewrite (map_filter_comm _ _ strip truthy). unfold or_else.
  destruct (filter truthy (map strip (split (ch ";") s)))
    as [|kw kws] eqn:E;
    [split; [discriminate | split; [exact Hd | now left]]|].
  assert (Hall : forall k, In k (kw :: kws) ->
                   exists piece, In piece (split (ch ";") s)
                                 /\ k = strip piece /\ k <> []).
  { intros k Hk. rewrite <- E in Hk. apply filter_In in Hk.
    destruct Hk as [Hk Ht]. apply in_map_iff in Hk.
    destruct Hk as (piece & <- & Hp). exists piece.
    repeat split; auto. now apply truthy_true. }
  split; [discriminate|]. split.
  - apply Forall_forall. intros k Hk.
    destruct (Hall k Hk) as (piece & Hp & -> & Hne).
    split; [assumption|]. split; [apply strip_idempotent|].
    destruct (contains (ch ";") (strip piece)) eqn:Hc; [|reflexivity].
    apply contains_In, strip_chars, contains_In in Hc.
    rewrite (split_piece_no_sep _ _ _ Hp) in Hc. discriminate.
  - right. exists s. split; [reflexivity|]. split; [now rewrite E|].
    apply Forall_forall. intros k Hk.
    destruct (Hall k Hk) as (piece & Hp & -> & _).
    apply substring_trans with (t := piece).
    + now apply (split_piece_substring (ch ";")).
    + apply strip_substring.
Qed.

(** ** The encoded query *)

Lemma flat_map_join (f : N -> str) (sep : str) (parts : list str) :
  flat_map f (join sep parts)
  = join (flat_map f sep) (map (flat_map f) parts).
Proof.
  induction parts as [|p parts IH]; [reflexivity|].
  destruct parts as [|p' parts]; [reflexivity|].
  change (join sep (p :: p' :: parts))
    with (p ++ sep ++ join sep (p' :: parts)).
  rewrite !flat_map_app, IH. reflexivity.
Qed.

(** X5. For a surname and keywords that UTF-8 can encode, the encoded
    query that ends every link is
    [site%3Alinkedin.com%2Fin+%22<surname>%22+%28<kw>+OR+...%29], the
    surname and the keywords (with their quotes) encoded code point by
    code point. *)
Theorem quote_plus_build_query (surname : str) (org_keywords : list str) :
  clean surname -> Forall clean org_keywords ->
  quote_plus (build_query surname org_keywords)
  = Some (lit "site%3Alinkedin.com%2Fin+%22"
            ++ flat_map encode_cp surname
            ++ lit "%22+%28"
            ++ join (lit "+OR+")
                 (map (fun kw => flat_map encode_cp (quote_keyword kw))
                      org_keywords)
            ++ lit "%29").
Proof.
  intros Hs Hk.
  rewrite (quote_plus_encode_cp _ (clean_build_query _ _ Hs Hk)).
  f_equal. unfold build_query.
  change (dquote :: surname ++ dquote
            :: lit " (" ++ join (lit " OR ") (map quote_keyword org_keywords)
            ++ lit ")")
    with ([dquote] ++ surname ++ (dquote :: lit " (")
            ++ join (lit " OR ") (map quote_keyword org_keywords)
            ++ lit ")").
  rewrite !flat_map_app, flat_map_join, map_map.
  change (flat_map encode_cp (lit "site:linkedin.com/in "))
    with (lit "site%3Alinkedin.com%2Fin+").
  change (flat_map encode_cp [dquote]) with (lit "%22").
  change (flat_map encode_cp (dquote :: lit " (")) with (lit "%22+%28").
  change (flat_map encode_cp (lit " OR ")) with (lit "+OR+").
  change (flat_map encode_cp (lit ")")) with (lit "%29").
  reflexivity.
Qed.

Lemma quote_plus_build_query_witness :
  quote_plus (build_query (lit "doe") [lit "sk.kz"; lit "a b"])
  = Some (lit "site%3Alinkedin.com%2Fin+%22doe%22+%28sk.kz+OR+%22a+b%22%29").
Proof.
  rewrite (quote_plus_build_query (lit "doe") [lit "sk.kz"; lit "a b"]).
  - reflexivity.
  - reflexivity.
  - repeat constructor.
Defined.

(** ** When the links can be built *)

Lemma quote_plus_none (q : str) :
  forallb is_scalar q = false -> quote_plus q = None.
Proof.
  intros H. unfold quote_plus, quote. rewrite (utf8_encode_strict _ H).
  destruct q as [|c q]; [discriminate|]. cbn [truthy negb].
  now destruct (contains (ch " ") (c :: q)).
Qed.

(** What [quote_plus] returns can be decoded and is made of URL
    characters. *)
Lemma quote_plus_some (q enc : str) :
  quote_plus q = Some enc ->
  clean q /\ unquote_plus enc = Some q /\ forallb url_char enc = true.
Proof.
  intros H. destruct (forallb is_scalar q) eqn:Hq.
  - destruct (quote_plus_forms q Hq) as (bs & safe & Hs & Hb & Hd & He).
    rewrite He in H. injection H as <-. split; [exact Hq|]. split.
    + unfold unquote_plus. now rewrite (form_bytes_decode safe Hs bs Hb).
    + now apply form_bytes_chars.
  - rewrite (quote_plus_none q Hq) in H. discriminate.
Qed.

Lemma build_search_links_inv (query : str) (links : dict) :
  build_search_links query = Ok links ->
  exists enc,
    quote_plus query = Some enc
    /\ links = links_of enc.
Proof.
  unfold build_search_links. destruct (quote_plus query) as [enc|];
    [|discriminate].
  intros H. injection H as <-. exists enc. split; reflexivity.
Qed.

(** X6. [build_search_links] returns links exactly for the queries that
    UTF-8 can encode; for any other query it raises
    [UnicodeEncodeError], and it raises nothing else. *)
Theorem build_search_links_outcome (query : str) :
  (clean query <-> exists links, build_search_links query = Ok links)
  /\ (forallb is_scalar query = false
      <-> build_search_links query = Raise UnicodeEncodeError)
  /\ (forall e, build_search_links query = Raise e
                -> e = UnicodeEncodeError).
Proof.
  unfold clean. destruct (forallb is_scalar query) eqn:Hq.
  - destruct (quote_plus_forms query Hq) as (bs & safe & _ & _ & _ & He).
    assert (Hok : exists links, build_search_links query = Ok links).
    { unfold build_search_links. rewrite He. eauto. }
    destruct Hok as [links Hok]. rewrite Hok.
    repeat split; eauto; discriminate.
  - rewrite (build_search_links_raises query Hq).
    repeat split; try discriminate; auto.
    + intros [links H]. discriminate.
    + intros e H. now injection H.
Qed.

(** X7. Two queries that share one link are the same query: the link of
    any of the three engines determines the query. *)
Theorem build_search_links_injective (q1 q2 : str) (l1 l2 : dict) :
  build_search_links q1 = Ok l1 ->
  build_search_links q2 = Ok l2 ->
  dict_get "Google" l1 [] = dict_get "Google" l2 []
  \/ dict_get "Bing" l1 [] = dict_get "Bing" l2 []
  \/ dict_get "Yandex" l1 [] = dict_get "Yandex" l2 [] ->
  q1 = q2.
Proof.
  intros H1 H2 Hshared.
  destruct (build_search_links_inv _ _ H1) as (e1 & Hq1 & ->).
  destruct (build_search_links_inv _ _ H2) as (e2 & Hq2 & ->).
  assert (He : e1 = e2).
  { cbn [dict_get String.eqb Ascii.eqb Bool.eqb] in Hshared.
    destruct Hshared as [H|[H|H]]; now apply app_inv_head in H. }
  subst e2. apply quote_plus_some in Hq1, Hq2.
  destruct Hq1 as (_ & D1 & _), Hq2 as (_ & D2 & _). congruence.
Qed.

Lemma build_search_links_injective_witness :
  lit "a b" = lit "a b".
Proof.
  destruct (build_search_links (lit "a b")) as [links|e] eqn:E;
    [|vm_compute in E; discriminate].
  exact (build_search_links_injective _ _ _ _ E E (or_introl eq_refl)).
Defined.

(** ** The rows *)

Lemma extract_surname_hint_local_chars (local : str) :
  forallb local_char local = true ->
  forallb local_char (extract_surname_hint local) = true.
Proof.
  rewrite !forallb_forall. intros H c Hc.
  apply H. now apply extract_surname_hint_chars.
Qed.

(** The row of an address, when it can be built. *)
Lemma build_row_inv (org_keywords : list str) (e : str) (row : dict) :
  email_shape e -> build_row org_keywords e = Ok row ->
  exists local domain enc,
    e = local ++ ch "@" :: domain
    /\ forallb local_char local = true
    /\ quote_plus (build_query (extract_surname_hint local) org_keywords)
       = Some enc
    /\ row = row_of e (extract_surname_hint local) enc.
Proof.
  intros Hs H.
  destruct (shape_split e Hs) as (local & domain & Hsplit & He & _ & Hl).
  unfold build_row in H. rewrite Hsplit in H. cbn [unpack2 bind fst] in H.
  destruct (build_search_links
              (build_query (extract_surname_hint local) org_keywords))
    as [links|] eqn:El; [|discriminate].
  cbn [bind] in H. injection H as <-.
  destruct (build_search_links_inv _ _ El) as (enc & Hq & ->).
  exists local, domain, enc. repeat split; auto.
Qed.

Lemma build_row_raises (org_keywords : list str) (e : str) (x : exn) :
  email_shape e -> build_row org_keywords e = Raise x ->
  x = UnicodeEncodeError.
Proof.
  intros Hs H.
  destruct (shape_split e Hs) as (local & domain & Hsplit & _).
  unfold build_row in H. rewrite Hsplit in H. cbn [unpack2 bind fst] in H.
  unfold build_search_links in H.
  destruct (quote_plus _); cbn [bind] in H; [discriminate|].
  now injection H.
Qed.

(** X8. For an address of the accepted shape the loop body never fails
    on the unpacking: it raises [UnicodeEncodeError] or gives a row.  The
    row has the five field names as its keys, in order; its address is
    the input, its hint is made of letters, digits and [._+-] and is not
    empty, and its three links end in the same encoded query. *)
Theorem build_row_fields (org_keywords : list str) (e : str) :
  email_shape e ->
  build_row org_keywords e = Raise UnicodeEncodeError
  \/ exists row hint enc,
      build_row org_keywords e = Ok row
      /\ row = row_of e hint enc
      /\ map fst row = fieldnames
      /\ row_values row
         = [e; hint;
            lit "https://www.google.com/search?q=" ++ enc;
            lit "https://www.bing.com/search?q=" ++ enc;
            lit "https://yandex.com/search/?text=" ++ enc]
      /\ hint <> [] /\ forallb local_char hint = true
      /\ (exists local domain,
             e = local ++ ch "@" :: domain
             /\ hint = extract_surname_hint local
             /\ quote_plus (build_query hint org_keywords) = Some enc).
Proof.
  intros Hs. destruct (build_row org_keywords e) as [row|x] eqn:E.
  - right.
    destruct (build_row_inv _ _ _ Hs E)
      as (local & domain & enc & He & Hl & Hq & ->).
    exists (row_of e (extract_surname_hint local) enc),
      (extract_surname_hint local), enc.
    split; [reflexivity|]. split; [reflexivity|]. split; [reflexivity|].
    split; [reflexivity|]. split.
    + apply extract_surname_hint_nonempty. intros ->.
      destruct Hs as (loc & dom & tld & Heq & Hne & Hrest).
      destruct (shape_split _ (ex_intro _ loc (ex_intro _ dom
                  (ex_intro _ tld (conj Heq (conj Hne Hrest))))))
        as (l' & d' & Hsp & _ & Hn' & _).
      rewrite He in Hsp. cbn [app split1] in Hsp.
      rewrite N.eqb_refl in Hsp. injection Hsp as <- _. congruence.
    + split; [now apply extract_surname_hint_local_chars|].
      exists local, domain. auto.
  - left. now rewrite (build_row_raises _ _ _ Hs E).
Qed.

Lemma build_row_fields_witness :
  exists row,
    build_row DEFAULT_ORG_KEYWORDS (lit "a_b@corp.com") = Ok row
    /\ map fst row = fieldnames.
Proof.
  assert (Hs : email_shape (lit "a_b@corp.com")).
  { exists (lit "a_b"), (lit "corp"), (lit "com").
    repeat split; try reflexivity; try discriminate. simpl. lia. }
  destruct (build_row_fields DEFAULT_ORG_KEYWORDS _ Hs)
    as [E|(row & hint & enc & E & _ & Hk & _)].
  - vm_compute in E. discriminate.
  - exists row. split; [exact E | exact Hk].
Defined.

(** ** The CSV lines of the rows *)

Lemma existsb_none (A : Type) (p : A -> bool) (l : list A) :
  (forall x, In x l -> p x = false) -> existsb p l = false.
Proof.
  induction l as [|x l IH]; intros H; [reflexivity|].
  cbn [existsb]. rewrite (H x (or_introl eq_refl)). apply IH.
  intros y Hy. apply H. now right.
Qed.

Lemma csv_field_plain (f : str) :
  existsb csv_special f = false -> csv_field f = f.
Proof. intros H. unfold csv_field. now rewrite H. Qed.

Lemma local_char_not_special (c : N) :
  local_char c = true -> csv_special c = false.
Proof. intros H. destruct (csv_special c) eqn:E; [class_lia | reflexivity]. Qed.

Lemma url_char_not_special (c : N) :
  url_char c = true -> csv_special c = false.
Proof.
  intros H. destruct (csv_special c) eqn:E; [|reflexivity].
  unfold url_char in H. class_lia.
Qed.

Lemma shape_not_special (e : str) :
  email_shape e -> existsb csv_special e = false.
Proof.
  intros Hs. apply existsb_none. intros c Hc.
  destruct (shape_char_set e c Hs Hc) as [H| ->];
    [now apply local_char_not_special | reflexivity].
Qed.

Lemma forallb_not_special (p : N -> bool) (s : str) :
  (forall c, p c = true -> csv_special c = false) ->
  forallb p s = true -> existsb csv_special s = false.
Proof.
  intros Hp H. apply existsb_none. intros c Hc.
  rewrite forallb_forall in H. auto.
Qed.

Lemma split_app_sep (sep : N) (a b : str) :
  contains sep a = false ->
  split sep (a ++ sep :: b) = a :: split sep b.
Proof.
  induction a as [|c a IH]; intros H.
  - cbn [app split]. now rewrite N.eqb_refl.
  - rewrite contains_cons in H. apply orb_false_iff in H.
    destruct H as [Hc Ha]. cbn [app split].
    rewrite N.eqb_sym, Hc, (IH Ha). reflexivity.
Qed.

(** Cutting a joined line at the separator gives the fields back, when
    no field holds the separator. *)
Lemma split_join (sep : N) (fields : list str) :
  fields <> [] ->
  Forall (fun f => contains sep f = false) fields ->
  split sep (join [sep] fields) = fields.
Proof.
  intros Hne H. induction H as [|f fields Hf Hrest IH]; [congruence|].
  destruct fields as [|g fields]; [now apply split_absent|].
  change (join [sep] (f :: g :: fields))
    with (f ++ sep :: join [sep] (g :: fields)).
  rewrite (split_app_sep _ _ _ Hf), IH; [reflexivity | discriminate].
Qed.

(** The rows of accepted addresses. *)
Lemma build_rows_inv (org_keywords : list str) (emails : list str) :
  Forall email_shape emails ->
  forall rows,
    build_rows org_keywords emails = Ok rows ->
    Forall2 (fun e row =>
               exists hint enc,
                 row = row_of e hint enc
                 /\ forallb local_char hint = true
                 /\ forallb url_char enc = true)
            emails rows.
Proof.
  induction 1 as [|e emails He _ IH]; intros rows H.
  - injection H as <-. constructor.
  - cbn [build_rows] in H.
    destruct (build_row org_keywords e) as [row|] eqn:Er; [|discriminate].
    cbn [bind] in H.
    destruct (build_rows org_keywords emails) as [rest|]; [|discriminate].
    cbn [bind] in H. injection H as <-.
    constructor; [|now apply IH].
    destruct (build_row_inv _ _ _ He Er)
      as (local & domain & enc & _ & Hl & Hq & ->).
    exists (extract_surname_hint local), enc. split; [reflexivity|].
    split; [now apply extract_surname_hint_local_chars|].
    now destruct (quote_plus_some _ _ Hq) as (_ & _ & Hc).
Qed.

Lemma row_of_values_plain (e hint enc : str) :
  email_shape e -> forallb local_char hint = true ->
  forallb url_char enc = true ->
  Forall (fun f => existsb csv_special f = false)
         (row_values (row_of e hint enc)).
Proof.
  intros He Hh Hc.
  assert (Hu : existsb csv_special enc = false)
    by (apply (forallb_not_special url_char);
        [exact url_char_not_special | exact Hc]).
  change (row_values (row_of e hint enc))
    with [e; hint;
          lit "https://www.google.com/search?q=" ++ enc;
          lit "https://www.bing.com/search?q=" ++ enc;
          lit "https://yandex.com/search/?text=" ++ enc].
  repeat constructor.
  - now apply shape_not_special.
  - apply (forallb_not_special local_char);
      [exact local_char_not_special | exact Hh].
  - now rewrite existsb_app, Hu.
  - now rewrite existsb_app, Hu.
  - now rewrite existsb_app, Hu.
Qed.

Lemma csv_record_plain (fields : list str) (c : N) (f : str) (rest : list str) :
  fields = (c :: f) :: rest ->
  Forall (fun x => existsb csv_special x = false) fields ->
  csv_record fields = join [ch ","] fields ++ [CR; LF].
Proof.
  intros -> H. unfold csv_record.
  rewrite map_fixed.
  - destruct rest; reflexivity.
  - intros x Hx. apply csv_field_plain.
    rewrite Forall_forall in H. auto.
Qed.

(** X9. In the CSV of the rows built from the accepted addresses no
    field is ever quoted: a data line is the five values separated by
    commas, followed by CR LF, and cutting the line at its commas gives
    the five values back. *)
Theorem csv_rows_unquoted
    (org_keywords : list str) (lines : list str) (rows : list dict) :
  build_rows org_keywords (iter_emails lines) = Ok rows ->
  Forall (fun r =>
            List.length (row_values r) = 5%nat
            /\ Forall (fun f => csv_field f = f) (row_values r)
            /\ csv_record (row_values r)
               = join [ch ","] (row_values r) ++ [CR; LF]
            /\ split (ch ",") (join [ch ","] (row_values r))
               = row_values r)
         rows
  /\ (rows <> [] ->
      csv_text rows
      = header_line ++ [CR; LF]
          ++ flat_map (fun r => join [ch ","] (row_values r) ++ [CR; LF])
                      rows).
Proof.
  intros H.
  pose proof (build_rows_inv _ _ (iter_emails_shape lines) _ H) as H2.
  assert (Hshape := iter_emails_shape lines).
  assert (Hrows : Forall (fun r =>
            List.length (row_values r) = 5%nat
            /\ Forall (fun f => csv_field f = f) (row_values r)
            /\ csv_record (row_values r)
               = join [ch ","] (row_values r) ++ [CR; LF]
            /\ split (ch ",") (join [ch ","] (row_values r))
               = row_values r) rows).
  { clear H. induction H2 as [|e row emails rows' Hrow _ IH];
      [constructor|].
    inversion Hshape as [|? ? He Hes]; subst.
    constructor; [|now apply IH].
    destruct Hrow as (hint & enc & -> & Hh & Hc).
    pose proof (row_of_values_plain e hint enc He Hh Hc) as Hp.
    split; [reflexivity|]. split; [|split].
    - apply Forall_impl with (2 := Hp). intros f. apply csv_field_plain.
    - destruct e as [|c e'].
      + exfalso. now apply (shape_nonempty [] He).
      + eapply csv_record_plain; [reflexivity | exact Hp].
    - apply split_join; [discriminate|].
      apply Forall_impl with (2 := Hp). intros f Hf.
      now apply (csv_special_excludes (ch ",") f Hf). }
  split; [exact Hrows|].
  intros Hne. unfold csv_text.
  change (csv_record (map lit fieldnames)) with (header_line ++ [CR; LF]).
  rewrite <- app_assoc. f_equal. f_equal.
  destruct rows as [|r rows]; [congruence|].
  clear - Hrows. induction Hrows as [|r' rows' (_ & _ & Hr & _) _ IH];
    [reflexivity|].
  cbn [flat_map]. now rewrite Hr, IH.
Qed.

Lemma csv_rows_unquoted_witness :
  Forall (fun r => List.length (row_values r) = 5%nat)
         (match build_rows DEFAULT_ORG_KEYWORDS
                  (iter_emails example_lines) with
          | Ok rows => rows
          | Raise _ => []
          end).
Proof.
  destruct (build_rows DEFAULT_ORG_KEYWORDS (iter_emails example_lines))
    as [rows|x] eqn:E; [|constructor].
  destruct (csv_rows_unquoted DEFAULT_ORG_KEYWORDS example_lines rows E)
    as [Hall _].
  apply Forall_impl with (2 := Hall). intros r Hr. exact (proj1 Hr).
Defined.

(** ** Rows with other keys *)

Lemma dict_get_set_same (k : string) (v : str) (d : dict) (x : str) :
  dict_get k (dict_set k v d) x = v.
Proof.
  induction d as [|[k' v'] d IH]; cbn [dict_set dict_get].
  - now rewrite String.eqb_refl.
  - destruct (String.eqb k k') eqn:E; cbn [dict_get].
    + now rewrite String.eqb_refl.
    + now rewrite E.
Qed.

Lemma dict_get_set_other (k k' : string) (v : str) (d : dict) (x : str) :
  k' <> k -> dict_get k' (dict_set k v d) x = dict_get k' d x.
Proof.
  intros Hne. induction d as [|[k0 v0] d IH]; cbn [dict_set dict_get].
  - apply String.eqb_neq in Hne. now rewrite Hne.
  - destruct (String.eqb k k0) eqn:E; cbn [dict_get].
    + apply String.eqb_eq in E. subst k0.
      apply String.eqb_neq in Hne. now rewrite Hne.
    + now rewrite IH.
Qed.

(** X10. Both writers take from a row exactly the five fields, whatever
    keys it has: a missing key gives an empty field, a key that is no
    field name is ignored, and setting a field name changes that column
    only. *)
Theorem row_values_keys (r : dict) :
  List.length (row_values r) = 5%nat
  /\ (forall k i, nth_error fieldnames i = Some k ->
                  (forall v, ~ In (k, v) r) ->
                  nth_error (row_values r) i = Some [])
  /\ (forall k v, ~ In k fieldnames ->
                  row_values (dict_set k v r) = row_values r)
  /\ (forall k v i,
         nth_error fieldnames i = Some k ->
         nth_error (row_values (dict_set k v r)) i = Some v
         /\ forall j, j <> i ->
                      nth_error (row_values (dict_set k v r)) j
                      = nth_error (row_values r) j).
Proof.
  split; [reflexivity|]. split; [|split].
  - intros k i Hk Hmiss. unfold row_values.
    rewrite nth_error_map, Hk. cbn [option_map]. f_equal.
    clear Hk. induction r as [|[k' v'] r IH]; [reflexivity|].
    cbn [dict_get]. destruct (String.eqb k k') eqn:E.
    + apply String.eqb_eq in E. subst k'.
      exfalso. apply (Hmiss v'). now left.
    + apply IH. intros v Hin. apply (Hmiss v). now right.
  - intros k v Hk. unfold row_values. apply map_ext_in.
    intros k' Hk'. apply dict_get_set_other. intros ->. contradiction.
  - intros k v i Hi. unfold row_values. split.
    + rewrite nth_error_map, Hi. cbn [option_map].
      now rewrite dict_get_set_same.
    + intros j Hj. rewrite !nth_error_map.
      destruct (nth_error fieldnames j) as [k'|] eqn:Ej; [|reflexivity].
      cbn [option_map]. f_equal. apply dict_get_set_other.
      intros ->. apply Hj.
      assert (Hnd : NoDup fieldnames)
        by (repeat constructor; simpl; intuition discriminate).
      apply (proj1 (NoDup_nth_error fieldnames) Hnd); [|congruence].
      apply nth_error_Some. congruence.
Qed.

Lemma row_values_keys_witness :
  row_values (dict_set "note" (lit "x") [("email"%string, lit "a@b.co")])
  = [lit "a@b.co"; []; []; []; []].
Proof.
  rewrite (proj1 (proj2 (proj2 (row_values_keys _)))).
  - reflexivity.
  - simpl. intuition discriminate.
Defined.

(** X11. The sheet written by [try_write_xlsx] has the header and one
    row per row it is given, and no placeholder: it has as many rows as
    the CSV text has records exactly when there is at least one row;
    for no rows the CSV has one record more. *)
Theorem xlsx_cells_rows (rows : list dict) :
  List.length (xlsx_cells rows) = S (List.length rows)
  /\ hd_error (xlsx_cells rows) = Some (map lit fieldnames)
  /\ Forall (fun cells => List.length cells = 5%nat) (xlsx_cells rows)
  /\ (csv_count false (csv_text rows) = List.length (xlsx_cells rows)
      <-> rows <> [])
  /\ (rows = [] ->
      csv_count false (csv_text rows)
      = S (List.length (xlsx_cells rows))).
Proof.
  assert (Hc : csv_count false (csv_text rows)
               = S (match rows with
                    | [] => 1%nat
                    | _ => List.length rows
                    end)).
  { pose proof (csv_text_rows rows) as H. unfold csv_data_rows in H.
    unfold csv_text in *. rewrite csv_record_scan in *.
    cbn [Nat.pred] in H. now rewrite H. }
  unfold xlsx_cells. cbn [List.length hd_error]. rewrite length_map.
  split; [reflexivity|]. split; [reflexivity|]. split.
  - constructor; [reflexivity|]. apply Forall_map, Forall_forall.
    reflexivity.
  - rewrite Hc. split.
    + destruct rows; [split; [intros H; discriminate | congruence]|].
      split; [discriminate | reflexivity].
    + intros ->. reflexivity.
Qed.

(** ** The outcome of a run *)

Lemma clean_app_inv (s t : str) : clean (s ++ t) -> clean s /\ clean t.
Proof.
  unfold clean. rewrite forallb_app. apply andb_true_iff.
Qed.

Lemma clean_join_inv (sep : str) (parts : list str) :
  clean (join sep parts) -> Forall clean parts.
Proof.
  induction parts as [|p parts IH]; intros H; [constructor|].
  destruct parts as [|p' parts]; [repeat constructor; exact H|].
  change (join sep (p :: p' :: parts))
    with (p ++ sep ++ join sep (p' :: parts)) in H.
  apply clean_app_inv in H. destruct H as [Hp H].
  apply clean_app_inv in H. destruct H as [_ H].
  constructor; auto.
Qed.

Lemma clean_build_query_inv (surname : str) (org_keywords : list str) :
  clean (build_query surname org_keywords) -> Forall clean org_keywords.
Proof.
  unfold build_query. intros H.
  apply clean_app_inv in H. destruct H as [_ H].
  change (dquote :: surname ++ dquote
            :: lit " (" ++ join (lit " OR ") (map quote_keyword org_keywords)
            ++ lit ")")
    with ([dquote] ++ surname ++ (dquote :: lit " (")
            ++ join (lit " OR ") (map quote_keyword org_keywords)
            ++ lit ")") in H.
  apply clean_app_inv in H. destruct H as [_ H].
  apply clean_app_inv in H. destruct H as [_ H].
  apply clean_app_inv in H. destruct H as [_ H].
  apply clean_app_inv in H. destruct H as [H _].
  apply clean_join_inv in H. rewrite Forall_map in H.
  apply Forall_impl with (2 := H). intros kw Hkw.
  unfold quote_keyword in Hkw. destruct (contains (ch " ") kw); [|exact Hkw].
  change (dquote :: kw ++ [dquote]) with ([dquote] ++ kw ++ [dquote]) in Hkw.
  apply clean_app_inv in Hkw. destruct Hkw as [_ Hkw].
  now apply clean_app_inv in Hkw.
Qed.

(** With a keyword that cannot be encoded the first row already fails. *)
Lemma build_rows_raises (org_keywords : list str) (emails : list str) :
  Forall email_shape emails -> emails <> [] ->
  ~ Forall clean org_keywords ->
  build_rows org_keywords emails = Raise UnicodeEncodeError.
Proof.
  intros Hs Hne Hk. destruct emails as [|e emails]; [congruence|].
  inversion Hs as [|? ? He _]; subst. cbn [build_rows].
  destruct (build_row org_keywords e) as [row|x] eqn:E.
  - exfalso. apply Hk.
    destruct (build_row_inv _ _ _ He E) as (l & d & enc & _ & _ & Hq & _).
    apply quote_plus_some in Hq. destruct Hq as [Hq _].
    now apply clean_build_query_inv in Hq.
  - now rewrite (build_row_raises _ _ _ He E).
Qed.

Lemma Forall_clean_dec (l : list str) : {Forall clean l} + {~ Forall clean l}.
Proof.
  apply Forall_dec. intros s. unfold clean.
  destruct (forallb is_scalar s); [now left | right; discriminate].
Qed.

(** ** The size and the ASCII part of the encoding *)

Lemma form_bytes_length (safe : str) (bs : list N) :
  safe = [] \/ safe = [ch " "] ->
  Forall (fun b => b < 256) bs ->
  (List.length bs <= List.length (flat_map (form_byte safe) bs)
   <= 3 * List.length bs)%nat.
Proof.
  intros Hs. induction 1 as [|b bs Hb _ IH]; [simpl; lia|].
  cbn [flat_map]. rewrite length_app. cbn [List.length].
  assert (Hl : (1 <= List.length (form_byte safe b) <= 3)%nat).
  { destruct (form_byte_cases safe Hs b Hb) as [[_ ->]|[[_ ->]| ->]];
      simpl; lia. }
  lia.
Qed.

Lemma cp_bytes_length (c : N) :
  is_scalar c = true ->
  (1 <= List.length (cp_bytes c) <= 4)%nat
  /\ Forall (fun b => b < 256) (cp_bytes c).
Proof.
  intros Hc. destruct (utf8_cp_roundtrip c Hc) as (bs & E & Hb & _).
  unfold cp_bytes. rewrite E. split; [|exact Hb].
  unfold utf8_encode_cp in E.
  destruct (c <? 0x80); [injection E as <-; simpl; lia|].
  destruct (c <? 0x800); [injection E as <-; simpl; lia|].
  destruct (c <? 0x10000).
  - destruct (in_range 0xD800 0xDFFF c); [discriminate|].
    injection E as <-. simpl. lia.
  - destruct (c <? 0x110000); [|discriminate].
    injection E as <-. simpl. lia.
Qed.

Lemma hex_digit_not_space (d : N) : (hex_digit d =? ch " ") = false.
Proof.
  unfold hex_digit, ch. simpl N_of_ascii. destruct (d <? 10); test_lia.
Qed.

(** X15. What [quote_plus] does to ASCII: a letter, a digit, "_", ".",
    "-" or "~" stays, a space becomes "+", any other character below
    128 becomes "%" and its two upper-case hexadecimal digits.  A string
    of letters, digits and [_.-~] is returned unchanged.  The result is
    at least as long as the string and at most twelve times as long. *)
Theorem quote_plus_ascii :
  (forall c, c < 128 ->
             encode_cp c
             = if always_safe c then [c]
               else if c =? ch " " then [ch "+"]
               else [ch "%"; hex_digit (c / 16); hex_digit (c mod 16)])
  /\ (forall s, forallb always_safe s = true -> quote_plus s = Some s)
  /\ (forall q enc,
         quote_plus q = Some enc ->
         enc = flat_map encode_cp q
         /\ (List.length q <= List.length enc <= 12 * List.length q)%nat).
Proof.
  assert (Hascii : forall c, c < 128 ->
             encode_cp c
             = if always_safe c then [c]
               else if c =? ch " " then [ch "+"]
               else [ch "%"; hex_digit (c / 16); hex_digit (c mod 16)]).
  { intros c Hc. unfold encode_cp, cp_bytes, utf8_encode_cp.
    replace (c <? 0x80) with true by (symmetry; test_lia).
    cbn [flat_map app]. rewrite app_nil_r.
    unfold form_byte, quote_byte. cbn [contains existsb].
    rewrite orb_false_r. destruct (always_safe c) eqn:Hs; cbn [orb].
    - destruct (always_safe_plain c Hs) as (E & _).
      cbn [replace map]. now rewrite E.
    - destruct (c =? ch " ") eqn:E.
      + apply N.eqb_eq in E. subst c. reflexivity.
      + cbn [replace map]. rewrite !hex_digit_not_space.
        change (ch "%" =? ch " ") with false. reflexivity. }
  split; [exact Hascii|]. split.
  - intros s Hs.
    assert (Hclean : clean s).
    { unfold clean. rewrite forallb_forall in *. intros c Hc.
      specialize (Hs c Hc). destruct (is_scalar c) eqn:E; [reflexivity|].
      exfalso. unfold always_safe, is_letter, is_upper, is_lower,
        is_digit, ch in Hs. simpl N_of_ascii in Hs. test_lia. }
    rewrite (quote_plus_encode_cp s Hclean). f_equal.
    induction s as [|c s IH]; [reflexivity|].
    cbn [forallb] in Hs. apply andb_true_iff in Hs. destruct Hs as [Hc Hs].
    cbn [flat_map]. rewrite IH.
    + rewrite Hascii, Hc; [reflexivity|].
      unfold always_safe, is_letter, is_upper, is_lower, is_digit, ch in Hc.
      simpl N_of_ascii in Hc. test_lia.
    + exact Hs.
    + unfold clean in *. cbn [forallb] in Hclean.
      now apply andb_true_iff in Hclean.
  - intros q enc H.
    destruct (quote_plus_some q enc H) as (Hq & _ & _).
    rewrite (quote_plus_encode_cp q Hq) in H. injection H as <-.
    split; [reflexivity|].
    unfold clean in Hq. induction q as [|c q IH]; [simpl; lia|].
    cbn [forallb] in Hq. apply andb_true_iff in Hq. destruct Hq as [Hc Hq].
    cbn [flat_map]. rewrite length_app. cbn [List.length].
    destruct (cp_bytes_length c Hc) as [Hn Hb].
    pose proof (form_bytes_length [ch " "] (cp_bytes c)
                  (or_intror eq_refl) Hb) as Hf.
    fold (encode_cp c) in Hf. specialize (IH Hq). lia.
Qed.

Lemma quote_plus_ascii_witness :
  quote_plus (lit "Samruk-Kazyna") = Some (lit "Samruk-Kazyna").
Proof.
  apply (proj1 (proj2 quote_plus_ascii)). reflexivity.
Defined.

(** ** The keywords, in the words of the specification *)

Lemma join_cons_head (sep : str) (c : N) (h : str) (t : list str) :
  join sep ((c :: h) :: t) = c :: join sep (h :: t).
Proof. destruct t; reflexivity. Qed.

(** Joining the pieces of a split gives the string back. *)
Lemma join_split (sep : N) (s : str) : join [sep] (split sep s) = s.
Proof.
  induction s as [|c s IH]; [reflexivity|]. cbn [split].
  destruct (c =? sep) eqn:E.
  - apply N.eqb_eq in E. subst c.
    destruct (split sep s) as [|h t] eqn:Es.
    + now destruct (split_not_nil sep s).
    + change (join [sep] ([] :: h :: t)) with (sep :: join [sep] (h :: t)).
      now rewrite IH.
  - destruct (split sep s) as [|h t] eqn:Es.
    + now destruct (split_not_nil sep s).
    + now rewrite join_cons_head, IH.
Qed.

(** [split] is the only way to cut a string into pieces without the
    separator. *)
Lemma pieces_of_split (sep : N) (s : str) (pieces : list str) :
  pieces_of sep s pieces <-> pieces = split sep s.
Proof.
  unfold pieces_of. split.
  - intros (Hne & <- & Hfree). symmetry. now apply split_join.
  - intros ->. split; [apply split_not_nil|]. split; [apply join_split|].
    apply Forall_forall. apply split_piece_no_sep.
Qed.

Lemma lstrip_skip (pre t : str) :
  forallb isspace pre = true -> lstrip (pre ++ t) = lstrip t.
Proof.
  induction pre as [|c pre IH]; intros H; [reflexivity|].
  cbn [forallb] in H. apply andb_true_iff in H. destruct H as [Hc Hp].
  cbn [app lstrip]. rewrite Hc. auto.
Qed.

Lemma forallb_rev_same (p : N -> bool) (l : str) :
  forallb p (rev l) = forallb p l.
Proof.
  induction l as [|c l IH]; [reflexivity|].
  cbn [rev forallb]. rewrite forallb_app, IH. cbn [forallb].
  rewrite andb_true_r. apply andb_comm.
Qed.

(** [strip] is the only way to take the white space off both ends. *)
Lemma trimmed_of_strip (s x : str) : trimmed_of s x <-> x = strip s.
Proof.
  split.
  - intros (pre & post & -> & Hpre & Hpost & Hhead & Hlast).
    unfold strip, rstrip. rewrite (lstrip_skip pre _ Hpre).
    destruct x as [|c r].
    + cbn [app]. rewrite <- (app_nil_r post), (lstrip_skip post [] Hpost).
      reflexivity.
    + cbn [app]. rewrite (lstrip_fixed c _ (Hhead c r eq_refl)).
      change (c :: r ++ post) with ((c :: r) ++ post).
      rewrite rev_app_distr, lstrip_skip
        by now rewrite forallb_rev_same.
      destruct (rev (c :: r)) as [|z m] eqn:E.
      * apply (f_equal (@rev N)) in E. rewrite rev_involutive in E.
        discriminate.
      * assert (Hx : c :: r = rev m ++ [z]).
        { apply (f_equal (@rev N)) in E. now rewrite rev_involutive in E. }
        rewrite (lstrip_fixed z m (Hlast _ _ Hx)). now rewrite Hx.
  - intros ->. unfold trimmed_of.
    destruct (lstrip_spaces s) as (pre & Hs & Hpre).
    destruct (lstrip_spaces (rev (lstrip s))) as (sp & Hr & Hsp).
    exists pre, (rev sp). split; [|split; [exact Hpre|split]].
    + unfold strip, rstrip.
      rewrite <- rev_app_distr, <- Hr, rev_involutive. exact Hs.
    + now rewrite forallb_rev_same.
    + split; [apply strip_head | apply strip_last].
Qed.

Lemma Forall2_trimmed (pieces entries : list str) :
  Forall2 trimmed_of pieces entries -> entries = map strip pieces.
Proof.
  induction 1 as [|p e pieces entries Hpe _ IH]; [reflexivity|].
  cbn [map]. apply trimmed_of_strip in Hpe. now subst.
Qed.

(** C8. With an override the keyword list is the override cut at ";",
    every entry trimmed, empty entries dropped; when nothing is left, or
    when there is no override, it is the default list of three
    keywords.  Cutting and trimming are meant as the words say: the
    pieces hold no ";" and give the override back when joined with ";",
    and an entry is its piece without the white space at both ends. *)
Theorem org_keywords_override :
  List.length DEFAULT_ORG_KEYWORDS = 3%nat
  /\ org_keywords_of None = DEFAULT_ORG_KEYWORDS
  /\ (forall s,
         org_keywords_of (Some s)
         = match filter truthy (map strip (split (ch ";") s)) with
           | [] => DEFAULT_ORG_KEYWORDS
           | entries => entries
           end)
  /\ (forall s pieces entries,
         pieces_of (ch ";") s pieces ->
         Forall2 trimmed_of pieces entries ->
         org_keywords_of (Some s)
         = match filter truthy entries with
           | [] => DEFAULT_ORG_KEYWORDS
           | kept => kept
           end)
  /\ (forall s, exists pieces entries,
         pieces_of (ch ";") s pieces /\ Forall2 trimmed_of pieces entries)
  /\ org_keywords_of (Some (lit " a ; ;b c;;")) = [lit "a"; lit "b c"]
  /\ org_keywords_of (Some (9 :: lit "sk.kz" ++ [0xA0; 10] ++ lit ";x "))
     = [lit "sk.kz"; lit "x"]
  /\ org_keywords_of (Some (lit " ; ;")) = DEFAULT_ORG_KEYWORDS
  /\ org_keywords_of (Some []) = DEFAULT_ORG_KEYWORDS
  /\ (forall a w,
         main a w
         = (lines <- open_lines (input a) w ;;
            rows <- build_rows (org_keywords_of (org a))
                      (iter_emails lines) ;;
            report a rows w)).
Proof.
  assert (Hcode : forall s,
             org_keywords_of (Some s)
             = match filter truthy (map strip (split (ch ";") s)) with
               | [] => DEFAULT_ORG_KEYWORDS
               | entries => entries
               end).
  { intros s. unfold org_keywords_of.
    rewrite (map_filter_comm _ _ strip truthy).
    destruct s as [|c s]; [reflexivity|]. cbn [truthy]. unfold or_else.
    destruct (filter truthy (map strip (split (ch ";") (c :: s))));
      reflexivity. }
  split; [reflexivity|]. split; [reflexivity|]. split; [exact Hcode|].
  split; [|split].
  - intros s pieces entries Hp He.
    apply pieces_of_split in Hp. apply Forall2_trimmed in He.
    subst. apply Hcode.
  - intros s. exists (split (ch ";") s), (map strip (split (ch ";") s)).
    split; [now apply pieces_of_split|].
    induction (split (ch ";") s) as [|p l IH]; constructor; auto.
    now apply trimmed_of_strip.
  - repeat split; reflexivity.
Qed.

Lemma org_keywords_override_witness :
  org_keywords_of (Some (lit " a ;b")) = [lit "a"; lit "b"].
Proof.
  apply (proj1 (proj2 (proj2 (proj2 org_keywords_override)))
           (lit " a ;b") [lit " a "; lit "b"] [lit "a"; lit "b"]).
  - split; [discriminate|]. split; [reflexivity|].
    repeat constructor.
  - constructor; [|constructor; [|constructor]].
    + exists (lit " "), (lit " "). split; [reflexivity|].
      split; [reflexivity|]. split; [reflexivity|]. split.
      * intros c r H. injection H as <- _. reflexivity.
      * intros m z H. destruct m as [|m0 m]; [|destruct m; discriminate].
        injection H as <-. reflexivity.
    + exists [], []. split; [reflexivity|].
      split; [reflexivity|]. split; [reflexivity|]. split.
      * intros c r H. injection H as <- _. reflexivity.
      * intros m z H. destruct m as [|m0 m]; [|destruct m; discriminate].
        injection H as <-. reflexivity.
Defined.

(** ** The steps of a run *)

(** What [main] does up to the rows. *)
Lemma main_cases (a : args) (w : world) :
  match open_lines (input a) w with
  | Raise e => main a w = Raise e
  | Ok lines =>
      (iter_emails lines <> [] /\ ~ Forall clean (run_keywords a)
       /\ build_rows (run_keywords a) (iter_emails lines)
          = Raise UnicodeEncodeError
       /\ main a w = Raise UnicodeEncodeError)
      \/ ((iter_emails lines = [] \/ Forall clean (run_keywords a))
          /\ exists rows,
              build_rows (run_keywords a) (iter_emails lines) = Ok rows
              /\ List.length rows = List.length (iter_emails lines)
              /\ main a w = report a rows w)
  end.
Proof.
  unfold main, run_keywords.
  destruct (open_lines (input a) w) as [lines|e]; [|reflexivity].
  cbn [bind]. set (emails := iter_emails lines).
  set (kws := org_keywords_of (org a)).
  assert (Hs : Forall email_shape emails) by apply iter_emails_shape.
  destruct (Forall_clean_dec kws) as [Hk|Hk].
  - right. split; [now right|].
    destruct (build_rows_ok kws emails Hk Hs) as [rows Hr].
    exists rows. rewrite Hr. cbn [bind].
    split; [reflexivity|]. split; [|reflexivity].
    now apply (build_rows_length kws).
  - destruct emails as [|e emails'] eqn:Ee.
    + right. split; [now left|]. exists []. cbn [build_rows bind].
      repeat split.
    + left. split; [discriminate|]. split; [exact Hk|].
      rewrite (build_rows_raises kws (e :: emails') Hs);
        [split; reflexivity | | exact Hk].
      discriminate.
Qed.

Lemma printed_nil (w : world) : printed [] w = w.
Proof. destruct w. unfold printed. cbn. now rewrite app_nil_r. Qed.

Lemma printed_printed (ms1 ms2 : list message) (w : world) :
  printed ms2 (printed ms1 w) = printed (ms1 ++ ms2) w.
Proof. unfold printed. cbn. now rewrite app_assoc. Qed.

Lemma print_cases (m : message) (w : world) :
  print m w
  = match stdout_error w (line m) with
    | Some e => Raise e
    | None => Ok (printed [m] w)
    end.
Proof. reflexivity. Qed.

(** Printing succeeds exactly when the standard output takes every
    line. *)
Lemma print_all_ok (ms : list message) :
  forall w w',
    print_all ms w = Ok w' <->
    Forall (fun m => stdout_error w (line m) = None) ms
    /\ w' = printed ms w.
Proof.
  induction ms as [|m ms IH]; intros w w'; cbn [print_all].
  - rewrite printed_nil. split.
    + intros H. injection H as <-. split; [constructor | reflexivity].
    + intros [_ ->]. reflexivity.
  - rewrite print_cases.
    destruct (stdout_error w (line m)) as [e|] eqn:E; cbn [bind].
    + split; [discriminate|]. intros [H _].
      inversion H; subst. congruence.
    + rewrite IH, printed_printed. cbn [app].
      change (stdout_error (printed [m] w)) with (stdout_error w).
      split.
      * intros [H ->]. split; [constructor; assumption | reflexivity].
      * intros [H ->]. inversion H; subst. split; [assumption | reflexivity].
Qed.

Lemma print_all_raises (ms : list message) :
  forall w e,
    print_all ms w = Raise e ->
    exists m, In m ms /\ stdout_error w (line m) = Some e.
Proof.
  induction ms as [|m ms IH]; intros w e; cbn [print_all];
    [discriminate|].
  rewrite print_cases.
  destruct (stdout_error w (line m)) as [e'|] eqn:E; cbn [bind].
  - intros H. injection H as <-. exists m. split; [now left | exact E].
  - intros H. destruct (IH _ _ H) as (m' & Hin & Hm').
    exists m'. split; [now right | exact Hm'].
Qed.

(** What [main] does from the rows on: the CSV, then the workbook, then
    the lines. *)
Lemma report_cases (a : args) (rows : list dict) (w : world) :
  report a rows w
  = match write_error w (output a) (csv_text rows) with
    | Some e => Raise e
    | None =>
        w2 <- xlsx_outcome a rows (put_file (output a) (csv_text rows) w) ;;
        print_all (xlsx_messages a w
                     ++ [Processed (List.length rows);
                         CsvWritten (output a)]) w2
    end.
Proof.
  unfold report, write_csv, write_file.
  destruct (write_error w (output a) (csv_text rows)); [reflexivity|].
  cbn [bind]. unfold xlsx_outcome, xlsx_messages, xlsx_requested.
  set (w1 := put_file (output a) (csv_text rows) w).
  change (openpyxl w1) with (openpyxl w).
  destruct (xlsx a) as [path|].
  - destruct (truthy path).
    + unfold try_write_xlsx. change (openpyxl w1) with (openpyxl w).
      destruct (openpyxl w) as [workbook|]; cbn [bind fst snd app print_all].
      * destruct (workbook (xlsx_cells rows)) as [saved|]; cbn [bind];
          [|reflexivity].
        unfold write_file.
        destruct (write_error w1 path saved); cbn [bind fst snd];
          [reflexivity|].
        repeat match goal with
               | [ |- context [print ?m ?x] ] =>
                   destruct (print m x); cbn [bind]
               end; reflexivity.
      * repeat match goal with
               | [ |- context [print ?m ?x] ] =>
                   destruct (print m x); cbn [bind]
               end; reflexivity.
    + cbn [bind app print_all].
      repeat match goal with
             | [ |- context [print ?m ?x] ] =>
                 destruct (print m x); cbn [bind]
             end; reflexivity.
  - cbn [bind app print_all].
    repeat match goal with
           | [ |- context [print ?m ?x] ] =>
               destruct (print m x); cbn [bind]
           end; reflexivity.
Qed.

(** What lines 112-117 leave behind. *)
Lemma xlsx_outcome_ok (a : args) (rows : list dict) (w1 w2 : world) :
  xlsx_outcome a rows w1 = Ok w2 <->
  match xlsx_requested a, openpyxl w1 with
  | Some path, Some workbook =>
      exists saved,
        workbook (xlsx_cells rows) = Ok saved
        /\ write_error w1 path saved = None
        /\ w2 = put_file path saved w1
  | _, _ => w2 = w1
  end.
Proof.
  unfold xlsx_outcome.
  destruct (xlsx_requested a) as [path|];
    [|split; [intros H; now injection H | now intros ->]].
  destruct (openpyxl w1) as [workbook|];
    [|split; [intros H; now injection H | now intros ->]].
  destruct (workbook (xlsx_cells rows)) as [saved|e]; cbn [bind].
  - unfold write_file. destruct (write_error w1 path saved) eqn:E.
    + split; [discriminate|]. intros (s & Hs & He & _).
      injection Hs as <-. congruence.
    + split.
      * intros H. injection H as <-. eauto.
      * intros (s & Hs & _ & ->). now injection Hs as <-.
  - split; [discriminate|]. intros (s & Hs & _). discriminate.
Qed.

Lemma build_rows_emails (org_keywords : list str) (emails : list str)
    (rows : list dict) :
  Forall email_shape emails ->
  build_rows org_keywords emails = Ok rows ->
  map (fun r => dict_get "email" r []) rows = emails.
Proof.
  intros Hs H. pose proof (build_rows_inv _ _ Hs _ H) as H2.
  clear H Hs. induction H2 as [|e row emails rows (h & enc & -> & _) _ IH];
    [reflexivity|].
  cbn [map]. now rewrite IH.
Qed.


Lemma xlsx_outcome_static (a : args) (rows : list dict) (w1 w2 : world) :
  xlsx_outcome a rows w1 = Ok w2 ->
  stdout_error w2 = stdout_error w1 /\ file_of w2 = file_of w1
  /\ stdout w2 = stdout w1 /\ openpyxl w2 = openpyxl w1.
Proof.
  intros H. apply xlsx_outcome_ok in H.
  assert (Hc : w2 = w1 \/ exists p s, w2 = put_file p s w1).
  { destruct (xlsx_requested a); [|now left].
    destruct (openpyxl w1); [|now left].
    destruct H as (saved & _ & _ & ->). right. eauto. }
  destruct Hc as [-> | (p & s & ->)]; repeat split.
Qed.

(** A normal end of [main], step by step. *)
Lemma main_ok (a : args) (w w' : world) :
  main a w = Ok w' <->
  exists lines rows w2,
    open_lines (input a) w = Ok lines
    /\ build_rows (run_keywords a) (iter_emails lines) = Ok rows
    /\ write_error w (output a) (csv_text rows) = None
    /\ xlsx_outcome a rows (put_file (output a) (csv_text rows) w) = Ok w2
    /\ Forall (fun m => stdout_error w (line m) = None)
              (xlsx_messages a w
                 ++ [Processed (List.length rows); CsvWritten (output a)])
    /\ w' = printed (xlsx_messages a w
                       ++ [Processed (List.length rows);
                           CsvWritten (output a)]) w2.
Proof.
  unfold main. fold (run_keywords a).
  destruct (open_lines (input a) w) as [lines|e]; cbn [bind];
    [|split; [discriminate | intros (l & r & w2 & H & _); discriminate]].
  destruct (build_rows (run_keywords a) (iter_emails lines)) as [rows|e]
    eqn:Eb; cbn [bind].
  - rewrite report_cases.
    destruct (write_error w (output a) (csv_text rows)) as [e|] eqn:Ew.
    + split; [discriminate|].
      intros (l & r & w2 & Hl & Hr & Hw & _).
      injection Hl as <-. rewrite Eb in Hr. injection Hr as <-. congruence.
    + destruct (xlsx_outcome a rows
                  (put_file (output a) (csv_text rows) w)) as [w2|e] eqn:Ex;
        cbn [bind].
      * destruct (xlsx_outcome_static _ _ _ _ Ex) as (Hse & _).
        change (stdout_error (put_file (output a) (csv_text rows) w))
          with (stdout_error w) in Hse.
        rewrite print_all_ok, Hse. split.
        -- intros [Hf ->]. exists lines, rows, w2. repeat split; auto.
        -- intros (l & r & w2' & Hl & Hr & _ & Hx & Hf & ->).
           injection Hl as <-. rewrite Eb in Hr. injection Hr as <-.
           rewrite Ex in Hx. injection Hx as <-. split; auto.
      * split; [discriminate|].
        intros (l & r & w2 & Hl & Hr & _ & Hx & _).
        injection Hl as <-. rewrite Eb in Hr. injection Hr as <-. congruence.
  - split; [discriminate|].
    intros (l & r & w2 & Hl & Hr & _). injection Hl as <-.
    rewrite Eb in Hr. discriminate.
Qed.

(** X12. The order of failures before anything is written.  If the
    input cannot be opened, [main] raises what [open] raises.  Otherwise
    the row loop raises [UnicodeEncodeError], and so does [main], exactly
    when an address is accepted and a keyword cannot be encoded; it
    raises nothing else, the unpacking of an accepted address never
    fails; and when it does not raise it gives one row per accepted
    address, in order. *)
Theorem main_until_rows (a : args) (w : world) :
  (forall e, open_lines (input a) w = Raise e -> main a w = Raise e)
  /\ (forall lines,
         open_lines (input a) w = Ok lines ->
         (build_rows (run_keywords a) (iter_emails lines)
          = Raise UnicodeEncodeError
          <-> iter_emails lines <> [] /\ ~ Forall clean (run_keywords a))
         /\ (forall e,
                build_rows (run_keywords a) (iter_emails lines) = Raise e ->
                e = UnicodeEncodeError
                /\ main a w = Raise UnicodeEncodeError)
         /\ (forall rows,
                build_rows (run_keywords a) (iter_emails lines) = Ok rows ->
                List.length rows = List.length (iter_emails lines)
                /\ map (fun r => dict_get "email" r []) rows
                   = iter_emails lines
                /\ main a w = report a rows w)).
Proof.
  pose proof (main_cases a w) as H. split.
  - intros e He. now rewrite He in H.
  - intros lines Hl. rewrite Hl in H.
    destruct H as [(Hne & Hk & Hb & Hm)|(Hok & rows & Hb & Hlen & Hm)].
    + rewrite Hb. split; [tauto|]. split.
      * intros e He. injection He as <-. auto.
      * intros rows Hr. discriminate.
    + rewrite Hb. split; [|split].
      * split; [discriminate|]. intros [Hne Hk]. tauto.
      * intros e He. discriminate.
      * intros rows' Hr. injection Hr as <-.
        split; [exact Hlen|]. split; [|exact Hm].
        apply (build_rows_emails (run_keywords a));
          [apply iter_emails_shape | exact Hb].
Qed.

Lemma main_until_rows_witness :
  main surrogate_args example_world = Raise UnicodeEncodeError.
Proof.
  destruct (main_until_rows surrogate_args example_world) as [_ H].
  destruct (H (read_lines [] (join [LF] example_lines)) eq_refl)
    as (_ & Hr & _).
  exact (proj2 (Hr UnicodeEncodeError eq_refl)).
Defined.

(** X13. [main] ends normally exactly when every step does: the input
    opens, the rows are built, the CSV is written, the workbook, if
    [--xlsx] is given and [openpyxl] is there, is filled and written, and
    the standard output takes each line that is printed. *)
Theorem main_succeeds_iff (a : args) (w : world) :
  (exists w', main a w = Ok w') <->
  exists lines rows,
    open_lines (input a) w = Ok lines
    /\ (iter_emails lines = [] \/ Forall clean (run_keywords a))
    /\ build_rows (run_keywords a) (iter_emails lines) = Ok rows
    /\ write_error w (output a) (csv_text rows) = None
    /\ match xlsx_requested a, openpyxl w with
       | Some path, Some workbook =>
           exists saved,
             workbook (xlsx_cells rows) = Ok saved
             /\ write_error w path saved = None
       | _, _ => True
       end
    /\ Forall (fun m => stdout_error w (line m) = None)
              (xlsx_messages a w
                 ++ [Processed (List.length rows); CsvWritten (output a)]).
Proof.
  split.
  - intros [w' H]. apply main_ok in H.
    destruct H as (lines & rows & w2 & Hl & Hr & Hw & Hx & Hf & _).
    exists lines, rows. split; [exact Hl|]. split.
    + pose proof (main_cases a w) as Hc. rewrite Hl in Hc.
      destruct Hc as [(_ & _ & Hb & _)|(Hok & _)]; [congruence | exact Hok].
    + split; [exact Hr|]. split; [exact Hw|]. split; [|exact Hf].
      apply xlsx_outcome_ok in Hx.
      change (openpyxl (put_file (output a) (csv_text rows) w))
        with (openpyxl w) in Hx.
      destruct (xlsx_requested a); [|exact I].
      destruct (openpyxl w); [|exact I].
      destruct Hx as (saved & Hs & He & _). exists saved. split; assumption.
  - intros (lines & rows & Hl & _ & Hr & Hw & Hx & Hf).
    assert (Hout : exists w2,
               xlsx_outcome a rows (put_file (output a) (csv_text rows) w)
               = Ok w2).
    { unfold xlsx_outcome.
      change (openpyxl (put_file (output a) (csv_text rows) w))
        with (openpyxl w).
      destruct (xlsx_requested a) as [path|]; [|eauto].
      destruct (openpyxl w) as [workbook|]; [|eauto].
      destruct Hx as (saved & Hs & He). rewrite Hs. cbn [bind].
      unfold write_file.
      change (write_error (put_file (output a) (csv_text rows) w))
        with (write_error w).
      rewrite He. eauto. }
    destruct Hout as [w2 Hout]. eexists. apply main_ok.
    exists lines, rows, w2. repeat split; eauto.
Qed.

Lemma put_file_other (path content : str) (w : world) (f : N) :
  f <> file_of w path -> files (put_file path content w) f = files w f.
Proof.
  intros H. cbn [files put_file]. apply N.eqb_neq in H. now rewrite H.
Qed.

Lemma put_file_same (path content : str) (w : world) :
  files (put_file path content w) (file_of w path) = Some content.
Proof. cbn [files put_file]. now rewrite N.eqb_refl. Qed.

(** X14. After a normal end of [main]: it has printed, after the line
    about the workbook if one was asked for, the number of accepted
    addresses and the CSV path; the files other than the one the CSV path
    names and, when a workbook was written, the one its path names are
    as before; the workbook file holds what [openpyxl] saved, and the CSV
    file holds the table unless the two paths name the same file, in
    which case the workbook has replaced it. *)
Theorem main_postcondition (a : args) (w w' : world) :
  main a w = Ok w' ->
  exists lines rows,
    open_lines (input a) w = Ok lines
    /\ build_rows (run_keywords a) (iter_emails lines) = Ok rows
    /\ stdout w'
       = stdout w ++ xlsx_messages a w
           ++ [Processed (List.length (iter_emails lines));
               CsvWritten (output a)]
    /\ file_of w' = file_of w
    /\ (forall f,
           f <> file_of w (output a) ->
           (forall path, xlsx_requested a = Some path ->
                         openpyxl w <> None -> f <> file_of w path) ->
           files w' f = files w f)
    /\ match xlsx_requested a, openpyxl w with
       | Some path, Some workbook =>
           exists saved,
             workbook (xlsx_cells rows) = Ok saved
             /\ files w' (file_of w path) = Some saved
             /\ (file_of w path <> file_of w (output a) ->
                 files w' (file_of w (output a)) = Some (csv_text rows))
       | _, _ => files w' (file_of w (output a)) = Some (csv_text rows)
       end.
Proof.
  intros H. apply main_ok in H.
  destruct H as (lines & rows & w2 & Hl & Hr & Hw & Hx & Hf & ->).
  exists lines, rows. split; [exact Hl|]. split; [exact Hr|].
  assert (Hlen : List.length rows = List.length (iter_emails lines)).
  { apply (build_rows_length (run_keywords a)). exact Hr. }
  destruct (xlsx_outcome_static _ _ _ _ Hx) as (_ & Hfo & Hso & _).
  apply xlsx_outcome_ok in Hx.
  set (w1 := put_file (output a) (csv_text rows) w) in *.
  change (openpyxl w1) with (openpyxl w) in Hx.
  cbn [printed stdout file_of files].
  split; [rewrite Hso, Hlen; reflexivity|].
  split; [rewrite Hfo; reflexivity|].
  destruct (xlsx_requested a) as [path|] eqn:Hreq.
  - destruct (openpyxl w) as [workbook|] eqn:Ho.
    + destruct Hx as (saved & Hs & _ & ->). split.
      * intros f Hf1 Hf2. rewrite put_file_other.
        -- now apply put_file_other.
        -- apply (Hf2 path eq_refl). discriminate.
      * exists saved. split; [exact Hs|]. split.
        -- apply (put_file_same path saved w1).
        -- intros Hne. rewrite put_file_other.
           ++ apply put_file_same.
           ++ intros E. apply Hne. symmetry. exact E.
    + subst w2. split.
      * intros f Hf1 _. now apply put_file_other.
      * apply put_file_same.
  - subst w2. split.
    + intros f Hf1 _. now apply put_file_other.
    + apply put_file_same.
Qed.

Lemma main_postcondition_witness :
  exists w',
    main example_args example_world = Ok w'
    /\ stdout w'
       = [XlsxUnavailable; Processed 2; CsvWritten (output example_args)].
Proof.
  destruct (main example_args example_world) as [w'|x] eqn:E;
    [|vm_compute in E; discriminate].
  exists w'. split; [reflexivity|].
  destruct (main_postcondition example_args example_world w' E)
    as (lines & rows & Hl & _ & Hout & _).
  injection Hl as <-. exact Hout.
Defined.

(** X16. With the default keywords, or with an override that has no
    lone surrogate, the row loop never fails: once the input is open,
    [main] builds one row for each accepted address, and whatever it
    raises then comes from writing the CSV, from the workbook or from the
    standard output. *)
Theorem main_clean_override (a : args) (w : world) (lines : list str) :
  match org a with Some s => clean s | None => True end ->
  open_lines (input a) w = Ok lines ->
  exists rows,
    build_rows (run_keywords a) (iter_emails lines) = Ok rows
    /\ List.length rows = List.length (iter_emails lines)
    /\ forall e,
        main a w = Raise e ->
        write_error w (output a) (csv_text rows) = Some e
        \/ xlsx_outcome a rows (put_file (output a) (csv_text rows) w)
           = Raise e
        \/ exists m,
            In m (xlsx_messages a w
                    ++ [Processed (List.length rows);
                        CsvWritten (output a)])
            /\ stdout_error w (line m) = Some e.
Proof.
  intros Horg Hl.
  pose proof (org_keywords_clean _ Horg) as Hk. fold (run_keywords a) in Hk.
  pose proof (main_cases a w) as H. rewrite Hl in H.
  destruct H as [(_ & Hn & _)|(_ & rows & Hr & Hlen & Hm)]; [contradiction|].
  exists rows. split; [exact Hr|]. split; [exact Hlen|].
  intros e He. rewrite Hm, report_cases in He.
  destruct (write_error w (output a) (csv_text rows)) as [e'|];
    [left; congruence|].
  destruct (xlsx_outcome a rows (put_file (output a) (csv_text rows) w))
    as [w2|e'] eqn:Ex; cbn [bind] in He; [|right; left; congruence].
  right. right. apply print_all_raises in He.
  destruct (xlsx_outcome_static _ _ _ _ Ex) as (Hse & _).
  rewrite Hse in He. exact He.
Qed.

Lemma main_clean_override_witness :
  exists rows,
    build_rows (run_keywords example_args)
      (iter_emails (read_lines [] (join [LF] example_lines))) = Ok rows
    /\ List.length rows = 2%nat.
Proof.
  destruct (main_clean_override example_args example_world
              (read_lines [] (join [LF] example_lines)) I eq_refl)
    as (rows & Hr & Hlen & _).
  exists rows. split; [exact Hr | exact Hlen].
Defined.

(** ** A standard output that cannot print Cyrillic *)

Lemma ascii_stdout_rejects (t u : str) :
  forallb (fun c => c <? 128) t = false ->
  ascii_stdout (t ++ u) = Some UnicodeEncodeError.
Proof.
  intros H. unfold ascii_stdout. now rewrite forallb_app, H.
Qed.

(** X17. The count line that [main] always prints is Cyrillic, and so is
    the advisory line: a standard output whose encoding is ASCII rejects
    both with [UnicodeEncodeError].  Hence [main] never ends normally on
    a standard output that rejects the count line, whatever the input;
    on the example it raises [UnicodeEncodeError] where the same run
    ends normally on a standard output that takes every text. *)
Theorem main_needs_cyrillic_stdout :
  (forall n, ascii_stdout (line (Processed n)) = Some UnicodeEncodeError)
  /\ ascii_stdout (line XlsxUnavailable) = Some UnicodeEncodeError
  /\ (forall a w,
         (forall n, stdout_error w (line (Processed n)) <> None) ->
         forall w', main a w <> Ok w')
  /\ main example_args ascii_world = Raise UnicodeEncodeError
  /\ (exists w', main example_args example_world = Ok w').
Proof.
  split; [|split; [|split; [|split]]].
  - intros n. unfold line. rewrite <- app_assoc.
    apply ascii_stdout_rejects. reflexivity.
  - reflexivity.
  - intros a w Hrej w' H. apply main_ok in H.
    destruct H as (lines & rows & w2 & _ & _ & _ & _ & Hf & _).
    rewrite Forall_app in Hf. destruct Hf as [_ Hf].
    inversion Hf as [|? ? Hp _]; subst. now apply (Hrej (List.length rows)).
  - vm_compute. reflexivity.
  - eexists. vm_compute. reflexivity.
Qed.

Lemma main_needs_cyrillic_stdout_witness :
  main example_args ascii_world <> Ok example_world.
Proof.
  apply (proj1 (proj2 (proj2 main_needs_cyrillic_stdout))).
  intros n. change (stdout_error ascii_world) with ascii_stdout.
  rewrite (proj1 main_needs_cyrillic_stdout n). discriminate.
Defined.

(** ** The run of [main] when [openpyxl] is missing *)



